(** * email-automation: the contact extractor and the campaign sender

    A shallow embedding of
      - [improved_pdf_converter.py]: [parse_hr_data_improved] and the
        de-duplication loop of [save_contacts_to_csv];
      - [email_automation.py] and [email_automation_24x7.py]: the send state
        ([sent_today], [daily_limit], [last_sent_date], the sent log),
        [get_unsent_contacts], [personalize_email], [send_email], [run_batch],
        [run_continuous] and [calculate_smart_delay].

    Text.  A Python [str] is a [list ascii].  In the extractor a character is
    a code point below 256 and the character classes ([str.isspace],
    [str.isdigit], [str.lower], the [\w], [\s], [\d] of [re]) are Python's
    classes on that range.  In the sender text is only compared for equality
    and scanned for the ASCII punctuation of format strings. *)

From Stdlib Require Import Ascii String DecimalString ZArith QArith Qround Lqa.
From stdpp Require Import base tactics option list gmap strings.

Local Open Scope list_scope.
Local Open Scope nat_scope.

Abbreviation str := (list ascii).
Notation "'txt' s" := (list_ascii_of_string s) (at level 9, s at level 0, only parsing).

(** ** Python's text primitives *)

Module Py.

Definition code (c : ascii) : N := N_of_ascii c.

Definition in_range (lo hi : N) (c : ascii) : bool :=
  ((lo <=? code c) && (code c <=? hi))%N.

(** [str.isspace] on one character, which is also the [\s] of [re]:
    TAB..CR, FS..US, space, NEL and the no-break space. *)
Definition isspace (c : ascii) : bool :=
  in_range 9 13 c || in_range 28 32 c || (code c =? 133)%N || (code c =? 160)%N.

(** The [\d] of [re] on [str] patterns: decimal digits. *)
Definition isdecimal (c : ascii) : bool := in_range 48 57 c.

(** [str.isdigit] on one character: the decimal digits and the superscripts
    two, three and one. *)
Definition isdigit_chr (c : ascii) : bool :=
  in_range 48 57 c || in_range 178 179 c || (code c =? 185)%N.

Definition isupper_chr (c : ascii) : bool :=
  in_range 65 90 c || in_range 192 214 c || in_range 216 222 c.

Definition isalpha_ascii (c : ascii) : bool :=
  in_range 65 90 c || in_range 97 122 c.

Definition isalpha_chr (c : ascii) : bool :=
  isalpha_ascii c || (code c =? 170)%N || (code c =? 181)%N || (code c =? 186)%N
  || in_range 192 214 c || in_range 216 246 c || in_range 248 255 c.

(** The [\w] of [re] on [str] patterns: alphanumeric or underscore. *)
Definition isword (c : ascii) : bool :=
  isalpha_chr c || isdigit_chr c || in_range 188 190 c || (code c =? 95)%N.

Definition lower_chr (c : ascii) : ascii :=
  if isupper_chr c then ascii_of_N (code c + 32) else c.

Definition lower (s : str) : str := map lower_chr s.

(** [s.isdigit()]: false on the empty string. *)
Definition isdigit (s : str) : bool :=
  match s with
  | [] => false
  | _ => forallb isdigit_chr s
  end.

Definition eqb_chr (a b : ascii) : bool := Ascii.eqb a b.

Fixpoint eqb_str (a b : str) : bool :=
  match a, b with
  | [], [] => true
  | x :: a', y :: b' => eqb_chr x y && eqb_str a' b'
  | _, _ => false
  end.

Fixpoint startswith (s p : str) : bool :=
  match p, s with
  | [], _ => true
  | x :: p', y :: s' => eqb_chr x y && startswith s' p'
  | _ :: _, [] => false
  end.

(** [p in s] for strings. *)
Fixpoint contains (s p : str) : bool :=
  startswith s p ||
  match s with
  | [] => false
  | _ :: s' => contains s' p
  end.

Fixpoint lstrip (s : str) : str :=
  match s with
  | c :: s' => if isspace c then lstrip s' else s
  | [] => []
  end.

Definition rstrip (s : str) : str := rev (lstrip (rev s)).

Definition strip (s : str) : str := rstrip (lstrip s).

(** [s.split(sep)] for a separator of one character: the pieces between the
    occurrences, empty pieces kept. *)
Fixpoint split_chr (sep : ascii) (s : str) : list str :=
  match s with
  | [] => [[]]
  | c :: s' =>
      if eqb_chr c sep then [] :: split_chr sep s'
      else match split_chr sep s' with
           | p :: ps => (c :: p) :: ps
           | [] => [[c]]
           end
  end.

(** [s.split()]: the maximal runs of non-whitespace characters. *)
Fixpoint split_ws_aux (cur : str) (s : str) : list str :=
  match s with
  | [] => match cur with [] => [] | _ => [rev cur] end
  | c :: s' =>
      if isspace c
      then match cur with
           | [] => split_ws_aux [] s'
           | _ => rev cur :: split_ws_aux [] s'
           end
      else split_ws_aux (c :: cur) s'
  end.

Definition split_ws (s : str) : list str := split_ws_aux [] s.

(** [sep.join(parts)]. *)
Fixpoint join (sep : str) (parts : list str) : str :=
  match parts with
  | [] => []
  | [p] => p
  | p :: ps => p ++ sep ++ join sep ps
  end.

(** [s.replace(old, new)] for a non-empty [old]: every occurrence, left to
    right, without overlap.  [skip] counts the characters of an occurrence
    still to be passed over. *)
Fixpoint replace_aux (old new : str) (skip : nat) (s : str) : str :=
  match s with
  | [] => []
  | c :: s' =>
      match skip with
      | S k => replace_aux old new k s'
      | O =>
          if startswith s old
          then new ++ replace_aux old new (length old - 1) s'
          else c :: replace_aux old new 0 s'
      end
  end.

Definition replace (s old new : str) : str := replace_aux old new 0 s.

(** [str(n)] for a non-negative integer. *)
Definition str_of_nat (n : nat) : str :=
  list_ascii_of_string (NilEmpty.string_of_uint (Nat.to_uint n)).

End Py.

(** ** The fragment of [re] the extractor uses

    The three patterns of the source are sequences of word boundaries, single
    characters of a class and greedy repetitions [{lo,}] of a class.
    [match_here] is the backtracking matcher: a repetition first tries to
    consume one more character and falls back to stopping, so the first
    success is the match [re] reports. *)

Module Re.
Import Py.

Inductive re_item : Type :=
  | Bnd
  | One (cls : ascii -> bool)
  | Rep (cls : ascii -> bool) (lo : nat).

(** [\b] between the character before the position, if any, and the rest. *)
Definition at_boundary (prev : option ascii) (s : str) : bool :=
  let before := match prev with Some c => isword c | None => false end in
  let after := match s with c :: _ => isword c | [] => false end in
  negb (Bool.eqb before after).

Fixpoint rep (cls : ascii -> bool) (lo : nat)
    (k : option ascii -> str -> option str)
    (n : nat) (prev : option ascii) (s : str) {struct s} : option str :=
  let stop := if lo <=? n then k prev s else None in
  match s with
  | c :: s' =>
      if cls c
      then match rep cls lo k (S n) (Some c) s' with
           | Some m => Some (c :: m)
           | None => stop
           end
      else stop
  | [] => stop
  end.

Fixpoint match_here (items : list re_item) : option ascii -> str -> option str :=
  match items with
  | [] => fun _ _ => Some []
  | Bnd :: r => fun prev s =>
      if at_boundary prev s then match_here r prev s else None
  | One cls :: r => fun prev s =>
      match s with
      | c :: s' =>
          if cls c
          then match match_here r (Some c) s' with
               | Some m => Some (c :: m)
               | None => None
               end
          else None
      | [] => None
      end
  | Rep cls lo :: r => rep cls lo (match_here r) 0
  end.

(** [re.findall(p, s)] for a pattern without groups that matches no empty
    string: the matches from left to right, the scan resuming after each. *)
Fixpoint findall_aux (p : list re_item) (prev : option ascii) (skip : nat)
    (s : str) : list str :=
  match s with
  | [] => []
  | c :: s' =>
      match skip with
      | S k => findall_aux p (Some c) k s'
      | O =>
          match match_here p prev s with
          | Some ((_ :: _) as m) => m :: findall_aux p (Some c) (length m - 1) s'
          | _ => findall_aux p (Some c) 0 s'
          end
      end
  end.

Definition findall (p : list re_item) (s : str) : list str :=
  findall_aux p None 0 s.

(** [re.split(p, s)] for such a pattern: the pieces between the matches. *)
Fixpoint split_aux (p : list re_item) (prev : option ascii) (skip : nat)
    (cur : str) (s : str) : list str :=
  match s with
  | [] => [rev cur]
  | c :: s' =>
      match skip with
      | S k => split_aux p (Some c) k cur s'
      | O =>
          match match_here p prev s with
          | Some ((_ :: _) as m) => rev cur :: split_aux p (Some c) (length m - 1) [] s'
          | _ => split_aux p (Some c) 0 (c :: cur) s'
          end
      end
  end.

Definition split (p : list re_item) (s : str) : list str :=
  split_aux p None 0 [] s.

(** [re.sub('^' + p, '', s)]: the pattern is anchored at the start of the
    string, so at most one match, at position 0, is removed. *)
Definition sub_at_start (p : list re_item) (s : str) : str :=
  match match_here p None s with
  | Some m => drop (length m) s
  | None => s
  end.

End Re.

(** ** The contact extractor ([improved_pdf_converter.py]) *)

Module Extractor.
Import Py Re.

(** The dictionary [{'company', 'hr_name', 'email', 'position'}] built at the
    end of the loop body. *)
Record contact : Type := Contact {
  company : str;
  hr_name : str;
  email : str;
  position : str
}.

(** An entry of [skipped_lines]. *)
Record skipped : Type := Skipped {
  line_num : nat;
  content : str;
  reason : str
}.

Definition nonempty {A} (l : list A) : bool :=
  match l with [] => false | _ => true end.

(** [email_pattern] under [re.IGNORECASE].  On code points below 256 the
    flag adds nothing to [A-Za-z]; [[A-Z|a-z]] is a class that also holds
    the bar. *)
Definition local_chr (c : ascii) : bool :=
  isalpha_ascii c || isdecimal c ||
  existsb (eqb_chr c) (txt "._%+-").

Definition domain_chr (c : ascii) : bool :=
  isalpha_ascii c || isdecimal c || existsb (eqb_chr c) (txt ".-").

Definition tld_chr (c : ascii) : bool :=
  isalpha_ascii c || eqb_chr c "|".

Definition email_pattern : list re_item :=
  [Bnd; Rep local_chr 1; One (eqb_chr "@"); Rep domain_chr 1;
   One (eqb_chr "."); Rep tld_chr 2; Bnd].

Definition EMAIL : str := txt "|||EMAIL|||".

Definition newline : ascii := ascii_of_nat 10.

(** The header filter at the top of [parse_hr_data_improved]. *)
Definition data_lines (text : str) : list str :=
  List.filter
    (fun line => nonempty line
                 && negb (startswith line (txt "SNo"))
                 && negb (startswith (lower line) (txt "name")))
    (map strip (split_chr newline text)).

(** The fallback loop over [line_parts.split()]: [parts] and [current_part]
    are the two lists the loop updates. *)
Fixpoint group_words (words : list str) (parts : list str)
    (current_part : list str) : list str :=
  match words with
  | [] =>
      if nonempty current_part
      then parts ++ [join (txt " ") current_part]
      else parts
  | word :: rest =>
      if eqb_str word EMAIL then
        if nonempty current_part
        then group_words rest
               ((parts ++ [join (txt " ") current_part]) ++ [EMAIL]) []
        else group_words rest (parts ++ [EMAIL]) current_part
      else if isdigit word && (length current_part =? 0) then
        group_words rest (parts ++ [word]) current_part
      else if (1 <? length word)
              && match word with c :: _ => isupper_chr c | [] => false end
              && (length current_part <? 3) then
        group_words rest parts (current_part ++ [word])
      else
        group_words rest parts (current_part ++ [word])
  end.

Definition split_parts (line_parts : str) : list str :=
  if contains line_parts (txt "  ")
  then List.filter nonempty (map strip (Re.split [Rep isspace 2] line_parts))
  else group_words (split_ws line_parts) [] [].

(** The [for i, part in enumerate(parts)] search, [-1] when the marker is
    no part of its own. *)
Fixpoint find_email_index (i : Z) (parts : list str) : Z :=
  match parts with
  | [] => (-1)%Z
  | part :: rest =>
      if eqb_str part EMAIL then i else find_email_index (i + 1)%Z rest
  end.

Definition title_words : list str :=
  [txt "manager"; txt "director"; txt "head"; txt "lead"; txt "hr";
   txt "recruiter"].

(** [re.sub(r'^\d+\s*', '', s).strip()]. *)
Definition clean (s : str) : str :=
  strip (sub_at_start [Rep isdecimal 1; Rep isspace 0] s).

Definition HR_Manager : str := txt "HR Manager".
Definition HR_Representative : str := txt "HR Representative".
Definition Unknown_Company : str := txt "Unknown Company".

(** [s[1]] of [email.split('@')], an [IndexError] when there is no second
    piece. *)
Definition after_at (email : str) : option str :=
  split_chr "@" email !! 1.

(** The test [if '@' not in email or '.' not in email.split('@')[1]]; the
    right operand is evaluated only when the left one is false. *)
Definition invalid_email (email : str) : option bool :=
  if negb (contains email (txt "@")) then Some true
  else match after_at email with
       | Some domain => Some (negb (contains domain (txt ".")))
       | None => None
       end.

(** Lines 96-148: the serial number, the name, the title and the company
    read off [parts]. *)
Definition fields_of_parts (parts : list str) : str * str * str * str :=
  let email_index := find_email_index 0 parts in
  let '(sno, parts, email_index) :=
    match parts with
    | p0 :: tl =>
        if isdigit p0
        then (p0, tl, if (0 <=? email_index)%Z
                      then (email_index - 1)%Z else email_index)
        else ([], parts, email_index)
    | [] => ([], parts, email_index)
    end in
  if (0 <=? email_index)%Z then
    let before_email := take (Z.to_nat email_index) parts in
    let after_email :=
      if (email_index <? Z.of_nat (length parts) - 1)%Z
      then drop (Z.to_nat (email_index + 1)) parts else [] in
    let '(name, title) :=
      match before_email with
      | [] => (HR_Manager, HR_Representative)
      | [potential_name] =>
          if existsb (contains (lower potential_name)) title_words
          then (HR_Manager, potential_name)
          else (potential_name, HR_Representative)
      | first :: others => (first, join (txt " ") others)
      end in
    (sno, name, title,
     if nonempty after_email then join (txt " ") after_email
     else Unknown_Company)
  else (sno, HR_Manager, HR_Representative, Unknown_Company).

(** Lines 150-172: the clean-up, the validation of the email and the
    contact; [None] when the validation raises. *)
Definition emit (line_num : nat) (line sno name title company email : str)
    : option (contact + skipped) :=
  let name := clean name in
  let company := clean company in
  let title := clean title in
  match invalid_email email with
  | None => None
  | Some true =>
      Some (inr (Skipped line_num line (txt "Invalid email: " ++ email)))
  | Some false =>
      Some (inl {|
        company :=
          if nonempty company && negb (eqb_str company Unknown_Company)
          then company
          else txt "Company_" ++
               (if nonempty sno then sno else str_of_nat line_num);
        hr_name := if nonempty name then name else HR_Manager;
        email := email;
        position := if nonempty title then title else HR_Representative
      |})
  end.

(** One iteration of the main loop over [enumerate(data_lines, 1)]: a
    contact, a skipped line, or [None] when the body raises. *)
Definition parse_line (line_num : nat) (line : str)
    : option (contact + skipped) :=
  match findall email_pattern line with
  | [] => Some (inr (Skipped line_num line (txt "No email found")))
  | email :: _ =>
      let line_parts := strip (replace line email EMAIL) in
      let '(sno, name, title, company) :=
        fields_of_parts (split_parts line_parts) in
      emit line_num line sno name title company email
  end.

(** The loop: [contacts] and [skipped_lines] in the order of the lines. *)
Fixpoint parse_lines (line_num : nat) (lines : list str)
    : option (list contact * list skipped) :=
  match lines with
  | [] => Some ([], [])
  | line :: rest =>
      match parse_line line_num line, parse_lines (S line_num) rest with
      | Some (inl c), Some (cs, sk) => Some (c :: cs, sk)
      | Some (inr k), Some (cs, sk) => Some (cs, k :: sk)
      | _, _ => None
      end
  end.

Definition parse_hr_data_improved (text : str)
    : option (list contact * list skipped) :=
  parse_lines 1 (data_lines text).

(** The de-duplication loop of [save_contacts_to_csv]: [seen_emails] is the
    set, the result is [(unique_contacts, duplicates)]. *)
Fixpoint dedup_loop (seen_emails : gset str) (contacts : list contact)
    : list contact * list contact :=
  match contacts with
  | [] => ([], [])
  | contact :: rest =>
      let email_lower := lower (email contact) in
      if decide (email_lower ∉ seen_emails)
      then let '(u, d) := dedup_loop ({[email_lower]} ∪ seen_emails) rest in
           (contact :: u, d)
      else let '(u, d) := dedup_loop seen_emails rest in
           (u, contact :: d)
  end.

Definition dedup (contacts : list contact) : list contact * list contact :=
  dedup_loop ∅ contacts.

(** [save_contacts_to_csv]: [None] is the early [return False] on an empty
    list; otherwise the rows written and the duplicates reported. *)
Definition save_contacts_to_csv (contacts : list contact)
    : option (list contact * list contact) :=
  match contacts with
  | [] => None
  | _ => Some (dedup contacts)
  end.

End Extractor.

(** ** The campaign sender ([email_automation.py], [email_automation_24x7.py]) *)

Module Sender.
Import Py.

(** *** [str.format] with keyword arguments only

    The scanner follows CPython's [MarkupIterator]: literal text with the
    escapes of doubled braces, then a field [name], [name!c] or [name:spec].
    The first part of the name (up to a dot or a bracket) is looked up:
    a number or nothing asks for a positional argument, and there is none;
    a name is a key of the keyword arguments.  A field whose name resolves
    and that carries a conversion, a specification, an attribute or an index
    is outside this embedding: the result is [Unsupported]. *)

Inductive exn : Type :=
  | KeyError (key : str)
  | IndexError
  | ValueError.

Inductive fmt_result : Type :=
  | Formatted (s : str)
  | Raises (e : exn)
  | Unsupported.

Inductive fmt_mode : Type :=
  | Literal
  | AfterOpen
  | AfterClose
  | FieldName (name : str) (in_bracket : bool)
  | Conversion
  | AfterConversion
  | Spec (depth : nat).

Fixpoint first_part (name : str) : str * bool :=
  match name with
  | [] => ([], false)
  | c :: r =>
      if eqb_chr c "." || eqb_chr c "[" then ([], true)
      else let '(f, more) := first_part r in (c :: f, more)
  end.

(** [get_integer]: the digits read so far may not exceed
    [PY_SSIZE_T_MAX / 10] when another digit comes. *)
Fixpoint get_integer (acc : N) (digits : str) : option N :=
  match digits with
  | [] => Some acc
  | c :: r =>
      if (922337203685477580 <? acc)%N then None
      else get_integer (acc * 10 + (code c - 48))%N r
  end.

(** The object a field stands for, or the exception of the lookup;
    [plain] tells that the field is nothing but a name. *)
Definition render_field (kwargs : list (str * str)) (name : str)
    (plain : bool) : fmt_result :=
  let '(first, more) := first_part name in
  match first with
  | [] => Raises IndexError
  | _ =>
      if forallb isdecimal first then
        match get_integer 0 first with
        | Some _ => Raises IndexError
        | None => Raises ValueError
        end
      else
        match List.find (fun kv => eqb_str (fst kv) first) kwargs with
        | None => Raises (KeyError first)
        | Some kv => if plain && negb more then Formatted (snd kv) else Unsupported
        end
  end.

(** What one character does to the scanner: go on in a mode, with the field
    name kept for later and the output so far (reversed), or stop. *)
Inductive fmt_step : Type :=
  | Go (mode : fmt_mode) (field : str) (out : str)
  | Stop (r : fmt_result).

Definition end_field (kwargs : list (str * str)) (name : str) (plain : bool)
    (out : str) : fmt_step :=
  match render_field kwargs name plain with
  | Formatted v => Go Literal [] (rev v ++ out)
  | other => Stop other
  end.

(** A character of a field name, outside brackets. *)
Definition name_step (kwargs : list (str * str)) (name out : str)
    (c : ascii) : fmt_step :=
  if eqb_chr c "{" then Stop (Raises ValueError)
  else if eqb_chr c "[" then Go (FieldName (c :: name) true) [] out
  else if eqb_chr c "}" then end_field kwargs (rev name) true out
  else if eqb_chr c ":" then Go (Spec 1) (rev name) out
  else if eqb_chr c "!" then Go Conversion (rev name) out
  else Go (FieldName (c :: name) false) [] out.

Definition step (kwargs : list (str * str)) (mode : fmt_mode)
    (field out : str) (c : ascii) : fmt_step :=
  match mode with
  | Literal =>
      if eqb_chr c "{" then Go AfterOpen [] out
      else if eqb_chr c "}" then Go AfterClose [] out
      else Go Literal [] (c :: out)
  | AfterClose =>
      if eqb_chr c "}" then Go Literal [] (c :: out)
      else Stop (Raises ValueError)
  | AfterOpen =>
      if eqb_chr c "{" then Go Literal [] (c :: out)
      else name_step kwargs [] out c
  | FieldName name true =>
      Go (FieldName (c :: name) (negb (eqb_chr c "]"))) [] out
  | FieldName name false => name_step kwargs name out c
  | Conversion => Go AfterConversion field out
  | AfterConversion =>
      if eqb_chr c "}" then end_field kwargs field false out
      else if eqb_chr c ":" then Go (Spec 1) field out
      else Stop (Raises ValueError)
  | Spec depth =>
      if eqb_chr c "{" then Go (Spec (S depth)) field out
      else if eqb_chr c "}" then
        match depth with
        | 1 => end_field kwargs field false out
        | _ => Go (Spec (pred depth)) field out
        end
      else Go (Spec depth) field out
  end.

Fixpoint format_aux (kwargs : list (str * str)) (mode : fmt_mode)
    (field : str) (out : str) (s : str) : fmt_result :=
  match s with
  | [] =>
      match mode with
      | Literal => Formatted (rev out)
      | _ => Raises ValueError
      end
  | c :: r =>
      match step kwargs mode field out c with
      | Go mode' field' out' => format_aux kwargs mode' field' out' r
      | Stop res => res
      end
  end.

(** [template.format] applied to keyword arguments. *)
Definition format (template : str) (kwargs : list (str * str)) : fmt_result :=
  format_aux kwargs Literal [] [] template.

(** *** Data *)

(** A row of the contact table as [contact.to_dict()]: [email] is the
    required column, the other columns may be absent. *)
Record contact : Type := Contact {
  email : str;
  company : option str;
  hr_name : option str
}.

(** The options of [config.json] the sender reads. *)
Record config : Type := Config {
  cfg_email : option str;
  cfg_candidate_name : option str;
  cfg_phone_number : option str;
  cfg_resume_path : option str;
  cfg_min_delay : Z;
  cfg_max_delay : Z
}.

(** An entry of the sent log. *)
Record log_entry : Type := LogEntry {
  log_timestamp : str;
  log_email : str;
  log_company : str;
  log_hr_name : str;
  log_subject : str
}.

(** The file named by [sent_emails_log]: missing, unreadable as JSON, or a
    list of entries. *)
Inductive log_file : Type :=
  | Absent
  | Corrupt
  | Entries (l : list log_entry).

(** The fields of [self] that the send loop reads and writes, with the log
    file. *)
Record state : Type := State {
  sent_today : Z;
  daily_limit : Z;
  last_sent_date : Z;
  sent_log : log_file
}.

(** What the transport is asked to do. *)
Inductive event : Type :=
  | Connect (ok : bool)
  | Sendmail (to : str) (ok : bool).

Definition dq : ascii := ascii_of_nat 34.

(** The text between the triple quotes of [default_template], line by
    line. *)
Definition default_template_lines : list str :=
    [[];
     txt "<!DOCTYPE html>";
     txt "<html>";
     txt "<head>";
     txt "    <meta charset=" ++ [dq] ++ txt "utf-8" ++ [dq] ++ txt ">";
     txt "    <style>";
     txt "        body { font-family: Arial, sans-serif; line-height: 1.6; color: #333; }";
     txt "        .header { color: #2c3e50; }";
     txt "        .content { margin: 20px 0; }";
     txt "        .signature { margin-top: 30px; border-top: 1px solid #eee; padding-top: 20px; }";
     txt "    </style>";
     txt "</head>";
     txt "<body>";
     txt "    <div class=" ++ [dq] ++ txt "header" ++ [dq] ++ txt ">";
     txt "        <h2>Subject: Application for Software Developer Position - {candidate_name}</h2>";
     txt "    </div>";
     txt "    ";
     txt "    <div class=" ++ [dq] ++ txt "content" ++ [dq] ++ txt ">";
     txt "        <p>Dear {hr_name},</p>";
     txt "        ";
     txt "        <p>I hope this email finds you well. I am writing to express my strong interest in software development opportunities at {company_name}.</p>";
     txt "        ";
     txt "        <p>As a passionate software developer with expertise in Python, SQL, AWS, React, JavaScript, HTML, CSS, NumPy, and Pandas, I am excited about the possibility of contributing to your team's success. I have attached my resume for your review.</p>";
     txt "        ";
     txt "        <p>Key highlights of my background:</p>";
     txt "        <ul>";
     txt "            <li>Strong programming skills in Python and JavaScript</li>";
     txt "            <li>Experience with modern web technologies (React, HTML, CSS)</li>";
     txt "            <li>Proficiency in data analysis tools (Pandas, NumPy)</li>";
     txt "            <li>Cloud computing experience with AWS</li>";
     txt "            <li>Database management skills with SQL</li>";
     txt "        </ul>";
     txt "        ";
     txt "        <p>I would welcome the opportunity to discuss how my skills and enthusiasm can contribute to {company_name}'s continued growth and success.</p>";
     txt "        ";
     txt "        <p>Thank you for your time and consideration. I look forward to hearing from you.</p>";
     txt "    </div>";
     txt "    ";
     txt "    <div class=" ++ [dq] ++ txt "signature" ++ [dq] ++ txt ">";
     txt "        <p>Best regards,<br>";
     txt "        {candidate_name}<br>";
     txt "        {phone_number}<br>";
     txt "        {email_address}</p>";
     txt "    </div>";
     txt "</body>";
     txt "</html>";
     txt "            "].

Definition default_template : str :=
  join [ascii_of_nat 10] default_template_lines.

(** *** Templates *)

(** [load_email_template] of [email_automation.py]: the text of the file as
    it is; when the file is missing the default template is written and
    returned.  The result is the template and the file afterwards. *)
Definition load_email_template (template_file : option str)
    : str * option str :=
  match template_file with
  | Some text => (text, template_file)
  | None => (default_template, Some default_template)
  end.


Definition get {A} (field : option A) (default : A) : A :=
  match field with Some v => v | None => default end.

Definition subject_prefix : str :=
  txt "Application for Developer Role " ++
  [ascii_of_nat 226; ascii_of_nat 128; ascii_of_nat 147] ++ txt " ".

(** [personalize_email]: the subject and the outcome of [template.format]. *)
Definition personalize_email (cfg : config) (template : str) (c : contact)
    : str * fmt_result :=
  let company_name := get (company c) (txt "Your Company") in
  let hr_name := get (hr_name c) (txt "Hiring Manager") in
  let candidate_name := get (cfg_candidate_name cfg) (txt "Abhinay Kumar") in
  let phone_number := get (cfg_phone_number cfg) (txt "+91-XXXXXXXXXX") in
  let email_address := get (cfg_email cfg) (txt "your_email@gmail.com") in
  let personalized_content :=
    format template
      [(txt "company_name", company_name);
       (txt "hr_name", hr_name);
       (txt "candidate_name", candidate_name);
       (txt "phone_number", phone_number);
       (txt "email_address", email_address)] in
  (subject_prefix ++ candidate_name, personalized_content).

(** *** The sent log *)

(** [get_unsent_contacts]: the rows whose email is no element of the set
    [{entry['email'] for entry in sent_log}]; every row when the file is
    missing or reading it raises. *)
Definition get_unsent_contacts (log : log_file) (contacts_df : list contact)
    : list contact :=
  match log with
  | Absent => contacts_df
  | Corrupt => contacts_df
  | Entries sent_log =>
      let sent_emails : gset str := list_to_set (map log_email sent_log) in
      List.filter (fun c => bool_decide (email c ∉ sent_emails)) contacts_df
  end.

(** [log_sent_email]: the entry appended to what the file held, an
    unreadable file counting as empty. *)
Definition log_sent_email (log : log_file) (c : contact) (subject : str)
    (timestamp : str) : log_file :=
  let sent_log := match log with Entries l => l | _ => [] end in
  Entries (sent_log ++
    [{| log_timestamp := timestamp;
        log_email := email c;
        log_company := get (company c) (txt "Unknown");
        log_hr_name := get (Sender.hr_name c) (txt "Unknown");
        log_subject := subject |}]).

(** *** Time *)

(** [datetime.now()]: the day as an ordinal and the microsecond of the
    day, below [86400000000]. *)
Record datetime : Type := DateTime {
  date : Z;
  micros : Z
}.

(** [timedelta.total_seconds], as an exact fraction. *)
Definition total_seconds (us : Z) : Q := us # 1000000.

(** [int(x)]: towards zero. *)
Definition py_int (x : Q) : Z := (Qnum x ÷ Zpos (Qden x))%Z.

Definition Qlt_bool (a b : Q) : bool := negb (Qle_bool b a).

(** [max(a, b)] and [min(a, b)]: the second argument only when it is
    strictly larger, or smaller. *)
Definition py_max (a b : Q) : Q := if Qlt_bool a b then b else a.
Definition py_min (a b : Q) : Q := if Qlt_bool b a then b else a.

(** *** What a call of [send_email] meets: the clock, the transport, the
    disk and the random generator. *)
Record world : Type := World {
  today_check : Z;
  today_store : Z;
  connect_ok : bool;
  rich_fields_ok : bool;
  attach_ok : bool;
  sendmail_ok : bool;
  timestamp : str;
  log_write_ok : bool;
  now_delay : datetime;
  now_loop : datetime;
  randint : Z -> Z -> Z
}.

Definition set_counter (st : state) (n date : Z) : state :=
  {| sent_today := n; daily_limit := daily_limit st;
     last_sent_date := date; sent_log := sent_log st |}.

Definition set_log (st : state) (log : log_file) : state :=
  {| sent_today := sent_today st; daily_limit := daily_limit st;
     last_sent_date := last_sent_date st; sent_log := log |}.

(** Lines 263-303 and 198-236: the reset on a new day, the connection, the
    message and [sendmail].  The result is the state, the subject when the
    transport accepted the message, and the events.  [rich_fields_ok]
    decides a template that leaves the embedding of [format].
    [connect_smtp], with its retries, is the transport's answer
    [connect_ok]; [wait_for_business_hours] of the first variant only lets
    time pass. *)
Definition attempt (cfg : config) (st : state) (w : world) (c : contact)
    (template : str) : state * option str * list event :=
  let st :=
    if (last_sent_date st <? today_check w)%Z
    then set_counter st 0 (today_store w) else st in
  if negb (connect_ok w) then (st, None, [Connect false])
  else
    let '(subject, content) := personalize_email cfg template c in
    let formatted :=
      match content with
      | Formatted _ => true
      | Raises _ => false
      | Unsupported => rich_fields_ok w
      end in
    if formatted && bool_decide (is_Some (cfg_email cfg))
       && bool_decide (is_Some (cfg_resume_path cfg)) && attach_ok w
    then
      if sendmail_ok w
      then (set_counter st (sent_today st + 1) (last_sent_date st),
            Some subject, [Connect true; Sendmail (email c) true])
      else (st, None, [Connect true; Sendmail (email c) false])
    else (st, None, [Connect true]).

End Sender.

(** *** [email_automation.py] *)

Module Batch.
Import Py Sender.

(** [send_email]: the state afterwards, the value returned and the
    events. *)
Definition send_email (cfg : config) (st : state) (w : world) (c : contact)
    (template : str) : state * bool * list event :=
  if (daily_limit st <=? sent_today st)%Z then (st, false, [])
  else
    match attempt cfg st w c template with
    | (st, Some subject, events) =>
        if log_write_ok w then
          let st := set_log st (log_sent_email (sent_log st) c subject
                                  (timestamp w)) in
          (* [random.randint] raises on an empty range *)
          (st, (cfg_min_delay cfg <=? cfg_max_delay cfg)%Z, events)
        else (st, false, events)
    | (st, None, events) => (st, false, events)
    end.

(** [DataFrame.head(n)]: for a negative [n], all rows but the last [-n]. *)
Definition head (n : Z) (rows : list contact) : list contact :=
  if (0 <=? n)%Z then take (Z.to_nat n) rows
  else take (length rows - Z.to_nat (- n)) rows.

(** The [for] loop of [run_batch]; [ws i] is what the [i]-th call of
    [send_email] meets.  The result is the state, [success_count] and the
    events. *)
Fixpoint batch_loop (cfg : config) (template : str) (ws : nat -> world)
    (i : nat) (st : state) (batch_contacts : list contact)
    : state * Z * list event :=
  match batch_contacts with
  | [] => (st, 0%Z, [])
  | c :: rest =>
      let '(st, ok, events) := send_email cfg st (ws i) c template in
      let n := if ok then 1%Z else 0%Z in
      if (daily_limit st <=? sent_today st)%Z then (st, n, events)
      else
        let '(st', n', events') := batch_loop cfg template ws (S i) st rest in
        (st', (n + n')%Z, events ++ events')
  end.

(** [run_batch]: [hr_contacts] is [None] when [load_hr_contacts] raises. *)
Definition run_batch (cfg : config) (hr_contacts : option (list contact))
    (template_file : option str) (ws : nat -> world) (st : state)
    (batch_size : Z) : state * Z * list event :=
  match hr_contacts with
  | None => (st, 0%Z, [])
  | Some contacts_df =>
      let template := fst (load_email_template template_file) in
      let unsent_contacts := get_unsent_contacts (sent_log st) contacts_df in
      batch_loop cfg template ws 0 st (head batch_size unsent_contacts)
  end.

End Batch.

(** *** [email_automation_24x7.py] *)

Module Continuous.
Import Py Sender.

(** [calculate_smart_delay]: the state after the reset and the delay.  The
    seconds are exact fractions; [randint a b] is what [random.randint]
    returns for the bounds [a] and [b]. *)
Definition calculate_smart_delay (st : state) (now : datetime)
    (randint : Z -> Z -> Z) : state * Z :=
  let st :=
    if (last_sent_date st <? date now)%Z
    then set_counter st 0 (date now) else st in
  if (daily_limit st <=? sent_today st)%Z then
    let wait_seconds := total_seconds (86400000000 - micros now) in
    (st, py_int wait_seconds)
  else
    let remaining_emails := (daily_limit st - sent_today st)%Z in
    let remaining_seconds := total_seconds (86399999999 - micros now) in
    if (0 <? remaining_emails)%Z then
      let optimal_delay := (remaining_seconds / inject_Z remaining_emails)%Q in
      let min_delay := py_max 30 (optimal_delay * 0.75)%Q in
      let max_delay := py_min 300 (optimal_delay * 1.25)%Q in
      let '(min_delay, max_delay) :=
        if Qle_bool max_delay min_delay then (30%Q, 120%Q)
        else (min_delay, max_delay) in
      (st, randint (py_int min_delay) (py_int max_delay))
    else (st, 60%Z).

Definition send_email (cfg : config) (st : state) (w : world) (c : contact)
    (template : str) : state * bool * list event :=
  if (daily_limit st <=? sent_today st)%Z then (st, false, [])
  else
    match attempt cfg st w c template with
    | (st, Some subject, events) =>
        if log_write_ok w then
          let st := set_log st (log_sent_email (sent_log st) c subject
                                  (timestamp w)) in
          let '(st, delay) :=
            calculate_smart_delay st (now_delay w) (randint w) in
          (st, true, events)
        else (st, false, events)
    | (st, None, events) => (st, false, events)
    end.

(** One turn of the [while True] loop of [run_continuous]. *)
Inductive turn : Type :=
  | Completed
  | SleptUntilNextDay (wait_seconds : Q)
  | Sent (success : bool).

Definition continuous_turn (cfg : config) (template : str)
    (contacts_df : list contact) (st : state) (w : world)
    : state * turn * list event :=
  match get_unsent_contacts (sent_log st) contacts_df with
  | [] => (st, Completed, [])
  | next_contact :: _ =>
      if (daily_limit st <=? sent_today st)%Z then
        (st, SleptUntilNextDay
               (total_seconds (86400000000 - micros (now_loop w))), [])
      else
        let '(st, success, events) :=
          send_email cfg st w next_contact template in
        (st, Sent success, events)
  end.

(** The loop, cut after [turns] turns: the state, the turns taken and the
    events. *)
Fixpoint continuous_loop (cfg : config) (template : str)
    (contacts_df : list contact) (ws : nat -> world) (i : nat) (turns : nat)
    (st : state) : state * list turn * list event :=
  match turns with
  | O => (st, [], [])
  | S turns =>
      let '(st, t, events) := continuous_turn cfg template contacts_df st (ws i) in
      match t with
      | Completed => (st, [t], events)
      | _ =>
          let '(st', ts, events') :=
            continuous_loop cfg template contacts_df ws (S i) turns st in
          (st', t :: ts, events ++ events')
      end
  end.

End Continuous.

(** ** Definitions used to state the properties *)

Module Spec.
Import Py.

(** The key of the de-duplication: the address in lower case. *)
Definition key (c : Extractor.contact) : str := lower (Extractor.email c).

(** A string of whitespace only, the empty string included. *)
Definition blank (s : str) : bool := forallb isspace s.

Definition all_fields_filled (c : Extractor.contact) : Prop :=
  blank (Extractor.hr_name c) = false /\
  blank (Extractor.position c) = false /\
  blank (Extractor.company c) = false /\
  blank (Extractor.email c) = false.

(** What a match of [email_pattern] looks like: a local part, the at sign,
    a domain, a dot, a suffix. *)
Definition email_shape (m : str) : Prop :=
  exists l d t,
    m = l ++ "@"%char :: d ++ "."%char :: t /\
    forallb Extractor.local_chr l = true /\
    forallb Extractor.domain_chr d = true /\
    forallb Extractor.tld_chr t = true.

(** The number of at signs of a string. *)
Definition count_at (s : str) : nat :=
  length (List.filter (eqb_chr "@") s).

(** An address that passes the validation of lines 155-162. *)
Definition passes_validation (email : str) : Prop :=
  count_at email = 1 /\
  (exists domain, Extractor.after_at email = Some domain /\
                  contains domain (txt ".") = true) /\
  Extractor.invalid_email email = Some false.

Definition john_line : str :=
  txt "1 John Smith Senior Recruiter john.smith@acme.com Acme Corp".

(** The record the specification expects from [john_line]. *)
Definition john_expected : Extractor.contact :=
  {| Extractor.company := txt "Acme Corp";
     Extractor.hr_name := txt "John Smith";
     Extractor.email := txt "john.smith@acme.com";
     Extractor.position := txt "Senior Recruiter" |}.

(** The record the extractor builds from it. *)
Definition john_extracted : Extractor.contact :=
  {| Extractor.company := txt "Acme Corp";
     Extractor.hr_name := txt "HR Manager";
     Extractor.email := txt "john.smith@acme.com";
     Extractor.position := txt "John Smith Senior Recruiter" |}.

Section SenderExamples.
Import Sender.

(** The filter in the words of the specification: a contact is dropped when
    some logged address equals its address up to letter case. *)
Definition filterUnsent_case_insensitive (C : list contact) (S : list str)
    : list contact :=
  List.filter
    (fun c => negb (existsb (fun s => eqb_str (lower s) (lower (email c))) S)) C.

Definition alice : contact :=
  {| email := txt "Alice@Example.com"; company := None; hr_name := None |}.

Definition alice_logged : log_entry :=
  {| log_timestamp := txt "2024-05-01T09:00:00";
     log_email := txt "alice@example.com";
     log_company := txt "Unknown"; log_hr_name := txt "Unknown";
     log_subject := txt "Application" |}.

(** The messages the transport accepted, counted in a trace. *)
Definition delivered (e : event) : bool :=
  match e with
  | Sendmail _ true => true
  | _ => false
  end.

Definition successes (events : list event) : Z :=
  Z.of_nat (length (List.filter delivered events)).

Definition plain_config : config :=
  {| cfg_email := Some (txt "me@gmail.com");
     cfg_candidate_name := None; cfg_phone_number := None;
     cfg_resume_path := Some (txt "resume.pdf");
     cfg_min_delay := 30; cfg_max_delay := 120 |}.

Definition bob : contact :=
  {| email := txt "bob@acme.com"; company := Some (txt "Acme");
     hr_name := Some (txt "Bob") |}.

Definition carol : contact :=
  {| email := txt "carol@initech.com"; company := None; hr_name := None |}.

Definition short_template : str := txt "Dear {hr_name} of {company_name}".

(** A call on day [day] at which the transport and the disk work; the random
    generator returns the lower bound. *)
Definition fair_world (day : Z) : world :=
  {| today_check := day; today_store := day;
     connect_ok := true; rich_fields_ok := true; attach_ok := true;
     sendmail_ok := true; timestamp := txt "2024-05-02T00:00:05";
     log_write_ok := true;
     now_delay := DateTime day 6000000; now_loop := DateTime day 5000000;
     randint := fun a _ => a |}.

(** The counter of day 100, read on a later day: one message sent (or the
    limit of two reached), no log yet. *)
Definition yesterday (sent : Z) : state :=
  {| sent_today := sent; daily_limit := 2; last_sent_date := 100;
     sent_log := Absent |}.


Definition literal_chr (c : ascii) : bool :=
  negb (eqb_chr c "{") && negb (eqb_chr c "}").

Definition name_chr (c : ascii) : bool :=
  negb (existsb (eqb_chr c) (txt "{}[].:!")).

(** A field that is nothing but a name: no conversion, no specification, no
    attribute, no index, and no number. *)
Definition plain_name (name : str) : bool :=
  Extractor.nonempty name && forallb name_chr name
  && negb (forallb isdecimal name).

(** A placeholder between literal text and the rest of a template. *)
Definition with_placeholder (before name after : str) : str :=
  before ++ "{"%char :: name ++ "}"%char :: after.


(** A state with nothing sent yet on day 100. *)
Definition fresh_state : state :=
  {| sent_today := 0; daily_limit := 2; last_sent_date := 100;
     sent_log := Absent |}.

(** The delay [calculate_smart_delay] aims at: the seconds left in the day
    over the messages left in the budget. *)
Definition target (st : state) (now : datetime) : Q :=
  (total_seconds (86399999999 - micros now)
   / inject_Z (daily_limit st - sent_today st))%Q.

(** Forty-one seconds before the last microsecond of day 100. *)
Definition late_now : datetime := DateTime 100 86358999999.

(** A random generator that returns the lower bound. *)
Definition lowest : Z -> Z -> Z := fun a _ => a.

End SenderExamples.

End Spec.

(** ** Definitions used to state the further properties *)

Module More.
Import Py.

(** The name and the title read off the parts before the address, as lines
    120-140 of [improved_pdf_converter.py] choose them. *)
Definition name_and_title (before_email : list str) : str * str :=
  match before_email with
  | [] => (Extractor.HR_Manager, Extractor.HR_Representative)
  | [potential_name] =>
      if existsb (contains (lower potential_name)) Extractor.title_words
      then (Extractor.HR_Manager, potential_name)
      else (potential_name, Extractor.HR_Representative)
  | first :: others => (first, join (txt " ") others)
  end.

Definition company_of (after_email : list str) : str :=
  match after_email with
  | [] => Extractor.Unknown_Company
  | _ => join (txt " ") after_email
  end.

(** A part or a word that is not the marker of the address. *)
Definition not_marker (p : str) : Prop := eqb_str p Extractor.EMAIL = false.

(** The serial number in front of the parts, if there is one. *)
Definition serial_parts (serial : option str) : list str :=
  match serial with Some sno => [sno] | None => [] end.

Definition serial_text (serial : option str) : str :=
  match serial with Some sno => sno | None => [] end.

End More.

Module Fallback.
Import Py More.

(** The words of a line in the order the fallback loop meets them: the
    serial number if any, the words before the marker, the marker, the words
    after it. *)
Definition words_of (serial : option str) (before after : list str)
    : list str :=
  serial_parts serial ++ before ++ Extractor.EMAIL :: after.

(** No word is the marker, and the first one is no number. *)
Definition plain_words (ws : list str) : Prop :=
  Forall not_marker ws /\
  match ws with w :: _ => isdigit w = false | [] => True end.

Definition one_part (ws : list str) : list str :=
  match ws with [] => [] | _ => [join (txt " ") ws] end.

End Fallback.

Module Trace.
Import Sender.

(** The addresses handed to [sendmail], in the order of the calls. *)
Definition recipients (events : list event) : list str :=
  omap (fun e => match e with Sendmail to _ => Some to | _ => None end) events.

(** The counter of the day lies between zero and the limit. *)
Definition counter_in_range (st : state) : Prop :=
  (0 <= sent_today st <= daily_limit st)%Z.

(** The contacts left once the address of [c] is logged. *)
Definition without_address (c : contact) (contacts : list contact)
    : list contact :=
  filter (fun x => email x <> email c) contacts.

End Trace.

Module Outcome.
Import Sender Trace.

(** What a call of [send_email] for [c] may do, in either variant: the
    limit stays, the transport is asked for at most one message and only
    for [c], the log changes by the entry of this send or not at all, a
    returned [True] means the message went out and is logged, and the
    counter stays in range. *)
Definition send_outcome (st : state) (w : world) (c : contact)
    (res : state * bool * list event) : Prop :=
  let '(st', ok, events) := res in
  daily_limit st' = daily_limit st /\
  (recipients events = [] \/ recipients events = [email c]) /\
  (sent_log st' = sent_log st \/
   exists subject,
     sent_log st' = log_sent_email (sent_log st) c subject (timestamp w)) /\
  (ok = true ->
   recipients events = [email c] /\
   exists subject,
     sent_log st' = log_sent_email (sent_log st) c subject (timestamp w)) /\
  (counter_in_range st -> counter_in_range st').

End Outcome.

Module Campaign.
Import Sender.

(** The turns of [run_continuous] in which a send was reported as done. *)
Definition sends_done (ts : list Continuous.turn) : nat :=
  length (List.filter
            (fun t => match t with Continuous.Sent true => true | _ => false end)
            ts).

(** The contacts still to be written to, as the loop computes them. *)
Definition unsent (st : state) (contacts_df : list contact) : list contact :=
  get_unsent_contacts (sent_log st) contacts_df.

End Campaign.

Module Templates.
Import Py Sender.

(** A template text in which every brace is doubled. *)
Definition escape_braces (s : str) : str :=
  flat_map (fun c => if eqb_chr c "{" || eqb_chr c "}" then [c; c] else [c]) s.

(** A result of [format] with [p] put in front of the text. *)
Definition prepend (p : str) (r : fmt_result) : fmt_result :=
  match r with
  | Formatted s => Formatted (p ++ s)
  | other => other
  end.

(** The values [personalize_email] gives to the five placeholders. *)
Definition placeholder_values (cfg : config) (c : contact)
    : list (str * str) :=
  [(txt "company_name", get (company c) (txt "Your Company"));
   (txt "hr_name", get (hr_name c) (txt "Hiring Manager"));
   (txt "candidate_name", get (cfg_candidate_name cfg) (txt "Abhinay Kumar"));
   (txt "phone_number", get (cfg_phone_number cfg) (txt "+91-XXXXXXXXXX"));
   (txt "email_address", get (cfg_email cfg) (txt "your_email@gmail.com"))].

End Templates.

(** *** [connect_smtp], with its retries *)

Module Transport.

(** [self.smtp_server]: [None], or the connection object, which has or has
    not gone through [starttls] and [login]. *)
Inductive server : Type :=
  | NoServer
  | Server (logged_in : bool).

Record connection : Type := Connection {
  smtp_server : server;
  connection_attempts : nat
}.

(** What one run of the body meets: whether [noop] on the connection at
    hand returns, whether [smtplib.SMTP] opens a connection, and whether
    [starttls] and [login] go through. *)
Record answer : Type := Answer {
  noop_ok : bool;
  open_ok : bool;
  login_ok : bool
}.

Definition max_connection_attempts : nat := 3.

(** Lines 233-241 and 126-134: a connection is opened and stored, then
    secured and logged in; the counter is reset only at the end.  The
    boolean is false when an exception is raised, with the connection as it
    was left. *)
Definition open_connection (conn : connection) (a : answer)
    : connection * bool :=
  if open_ok a then
    if login_ok a
    then (Connection (Server true) 0, true)
    else (Connection (Server false) (connection_attempts conn), false)
  else (conn, false).

(** The [except] branch: the counter goes up; below the maximum the call
    waits and tries again. *)
Definition backoff (cap : option Z) (attempts : nat) : Z :=
  let wait_time := (2 ^ Z.of_nat attempts * 60)%Z in
  match cap with
  | Some limit => Z.min limit wait_time
  | None => wait_time
  end.

(** [connect_smtp] of [email_automation.py] ([fresh] is false: a connection
    at hand that answers [noop] is kept) and of [email_automation_24x7.py]
    ([fresh] is true: a connection at hand is closed first; the wait is
    capped at 300 seconds).  [answers i] is what the [i]-th run of the body
    meets.  The result is the connection, the value returned and the waits;
    [None] when [fuel] runs out. *)
Fixpoint connect_smtp_from (fresh : bool) (fuel : nat)
    (answers : nat -> answer) (i : nat) (conn : connection)
    : option (connection * bool * list Z) :=
  match fuel with
  | O => None
  | S fuel =>
      let a := answers i in
      let kept :=
        match smtp_server conn with
        | Server _ => negb fresh && noop_ok a
        | NoServer => false
        end in
      if kept then Some (conn, true, [])
      else
        let conn := Connection NoServer (connection_attempts conn) in
        let '(conn, ok) := open_connection conn a in
        if ok then Some (conn, true, [])
        else
          let attempts := S (connection_attempts conn) in
          let conn := Connection (smtp_server conn) attempts in
          if attempts <? max_connection_attempts then
            let wait_time :=
              backoff (if fresh then Some 300%Z else None) attempts in
            match connect_smtp_from fresh fuel answers (S i) conn with
            | Some (conn', ok', waits) => Some (conn', ok', wait_time :: waits)
            | None => None
            end
          else Some (conn, false, [])
  end.

Definition connect_smtp (answers : nat -> answer) (conn : connection) :=
  connect_smtp_from false max_connection_attempts answers 0 conn.

Definition connect_smtp_24x7 (answers : nat -> answer) (conn : connection) :=
  connect_smtp_from true max_connection_attempts answers 0 conn.

End Transport.

Module Delay.
Import Sender.

(** The state [calculate_smart_delay] works on: the counter reset when the
    date is past [last_sent_date]. *)
Definition after_reset (st : state) (now : datetime) : state :=
  if (last_sent_date st <? date now)%Z
  then set_counter st 0 (date now) else st.

(** A random generator as [random.randint] is: within its bounds. *)
Definition within_bounds (randint : Z -> Z -> Z) : Prop :=
  forall a b, (a <= b)%Z -> (a <= randint a b <= b)%Z.

End Delay.

Module Tabular.
Import Py.

(** The text of a column: it ends with a character that is no whitespace
    and holds no two whitespace characters in a row. *)
Inductive column_chars : str -> Prop :=
  | column_end (x : ascii) :
      isspace x = false -> column_chars [x]
  | column_more (x y : ascii) (r : str) :
      isspace x = false \/ isspace y = false ->
      column_chars (y :: r) -> column_chars (x :: y :: r).

(** A column: such a text that also begins with a character that is no
    whitespace. *)
Definition column (c : str) : Prop :=
  column_chars c /\
  match c with x :: _ => isspace x = false | [] => False end.

Definition two_spaces : str := txt "  ".

End Tabular.

Module Address.
Import Py.

(** An address of the common form: a local part that begins with a letter,
    a digit or an underscore, a domain, and a suffix of two or more
    letters. *)
Definition address (l d t : str) : str :=
  l ++ "@"%char :: d ++ "."%char :: t.

Definition simple_address (l d t : str) : Prop :=
  match l with c :: _ => isword c = true | [] => False end /\
  forallb Extractor.local_chr l = true /\
  d <> [] /\ forallb Extractor.domain_chr d = true /\
  forallb isalpha_ascii t = true /\ 2 <= length t.

(** The record of a line that holds nothing but an address. *)
Definition bare_contact (line_num : nat) (email : str) : Extractor.contact :=
  {| Extractor.company := txt "Company_" ++ str_of_nat line_num;
     Extractor.hr_name := Extractor.HR_Manager;
     Extractor.email := email;
     Extractor.position := Extractor.HR_Representative |}.

End Address.

(** *** [run_continuous] of [email_automation.py] *)

Module Schedule.
Import Sender.

(** The four jobs of a day, at 09:00, 11:00, 14:00 and 16:00: each is
    [run_batch(20)]. *)
Definition batch_sizes_of_day : list Z := [20; 20; 20; 20]%Z.

(** The jobs of a day run one after the other on the same object.  Each
    job reads the contact file and the template again ([hr_contacts j],
    [template_file j]) and meets its own worlds ([ws j]).  The result is the
    state and the events of the day. *)
Fixpoint run_jobs (cfg : config) (hr_contacts : nat -> option (list contact))
    (template_file : nat -> option str) (ws : nat -> nat -> world)
    (j : nat) (st : state) (batch_sizes : list Z) : state * list event :=
  match batch_sizes with
  | [] => (st, [])
  | batch_size :: rest =>
      let '(st, _, events) :=
        Batch.run_batch cfg (hr_contacts j) (template_file j) (ws j) st
          batch_size in
      let '(st', events') :=
        run_jobs cfg hr_contacts template_file ws (S j) st rest in
      (st', events ++ events')
  end.

Definition run_day (cfg : config) (hr_contacts : nat -> option (list contact))
    (template_file : nat -> option str) (ws : nat -> nat -> world)
    (st : state) : state * list event :=
  run_jobs cfg hr_contacts template_file ws 0 st batch_sizes_of_day.

End Schedule.

(** * Properties *)

(** ** De-duplication *)

Section DedupFacts.
Import Py Extractor Spec.

Lemma dedup_loop_unique_fresh (l : list contact) :
  forall seen c, c ∈ (dedup_loop seen l).1 -> key c ∉ seen.
Proof.
  induction l as [|x l IH]; intros seen c; simpl.
  - by rewrite elem_of_nil.
  - destruct (decide (lower (email x) ∉ seen)) as [Hx|Hx].
    + destruct (dedup_loop ({[lower (email x)]} ∪ seen) l) as [u d] eqn:E.
      simpl. rewrite elem_of_cons. intros [->|Hc]; [done|].
      specialize (IH ({[lower (email x)]} ∪ seen) c).
      rewrite E in IH. specialize (IH Hc). set_solver.
    + destruct (dedup_loop seen l) as [u d] eqn:E. simpl. intros Hc.
      specialize (IH seen c). rewrite E in IH. auto.
Qed.

Lemma dedup_loop_unique_NoDup (l : list contact) :
  forall seen, NoDup (map key (dedup_loop seen l).1).
Proof.
  induction l as [|x l IH]; intros seen; simpl.
  - constructor.
  - destruct (decide (lower (email x) ∉ seen)) as [Hx|Hx].
    + pose proof (dedup_loop_unique_fresh l ({[lower (email x)]} ∪ seen)) as F.
      specialize (IH ({[lower (email x)]} ∪ seen)).
      destruct (dedup_loop ({[lower (email x)]} ∪ seen) l) as [u d].
      simpl in *. constructor; [|done].
      rewrite list_elem_of_fmap. intros (c & Hk & Hc).
      apply F in Hc. unfold key in Hc, Hk. rewrite <- Hk in Hc. set_solver.
    + specialize (IH seen). by destruct (dedup_loop seen l) as [u d].
Qed.

Lemma dedup_loop_fixes (u : list contact) :
  forall seen,
    NoDup (map key u) -> (forall c, c ∈ u -> key c ∉ seen) ->
    dedup_loop seen u = (u, []).
Proof.
  induction u as [|x u IH]; intros seen ND F; simpl; [done|].
  apply NoDup_cons in ND as [Hx ND'].
  destruct (decide (lower (email x) ∉ seen)) as [_|Hin].
  - rewrite IH; [done|done|].
    intros c Hc. specialize (F c (list_elem_of_further _ _ _ Hc)).
    assert (key c <> key x).
    { intros E. apply Hx. rewrite <- E. by apply list_elem_of_fmap_2. }
    change (lower (email x)) with (key x).
    rewrite not_elem_of_union, not_elem_of_singleton. done.
  - exfalso. apply Hin. apply (F x). by left.
Qed.

(** C7.  The de-duplication pass is idempotent: run on the contacts it
    kept, it keeps them all, in the same order, and reports no duplicate. *)
Theorem dedup_idempotent (contacts : list contact) :
  dedup (dedup contacts).1 = ((dedup contacts).1, []).
Proof.
  unfold dedup. apply dedup_loop_fixes.
  - apply dedup_loop_unique_NoDup.
  - intros c _. apply not_elem_of_empty.
Qed.

End DedupFacts.

(** ** The exclusion of contacted addresses *)

Section UnsentFacts.
Import Py Sender Spec.

(** C1, as stated, fails: an address logged in another letter case is not
    excluded. *)
Lemma get_unsent_contacts_is_case_sensitive :
  get_unsent_contacts (Entries [alice_logged]) [alice] = [alice] /\
  filterUnsent_case_insensitive [alice] (map log_email [alice_logged]) = [] /\
  get_unsent_contacts (Entries [alice_logged]) [alice] <>
  filterUnsent_case_insensitive [alice] (map log_email [alice_logged]).
Proof. by vm_compute. Qed.

Lemma filter_bool_decide {A} (P : A -> Prop) `{forall x, Decision (P x)}
    (l : list A) :
  List.filter (fun x => bool_decide (P x)) l = filter P l.
Proof.
  induction l as [|x l IH]; simpl; [done|].
  rewrite filter_cons, IH. by destruct (decide (P x));
    [rewrite bool_decide_eq_true_2|rewrite bool_decide_eq_false_2].
Qed.

(** C1, amended.  With a readable log, [get_unsent_contacts] returns exactly
    the contacts whose address equals no logged address, character for
    character, in the order of the contact list. *)
Theorem get_unsent_contacts_exact (sent_log : list log_entry)
    (contacts_df : list contact) :
  let S := map log_email sent_log in
  let unsent := get_unsent_contacts (Entries sent_log) contacts_df in
  unsent = filter (fun c => email c ∉ S) contacts_df /\
  sublist unsent contacts_df /\
  forall c, c ∈ unsent <-> c ∈ contacts_df /\ email c ∉ S.
Proof.
  intros S unsent.
  assert (E : unsent = filter (fun c => email c ∉ S) contacts_df).
  { unfold unsent, get_unsent_contacts. rewrite filter_bool_decide.
    apply list_filter_iff. intros c. unfold S.
    by rewrite elem_of_list_to_set. }
  split; [done|]. rewrite E. split.
  - apply sublist_filter.
  - intros c. rewrite list_elem_of_filter. tauto.
Qed.

End UnsentFacts.

(** ** The daily limit *)

Section LimitFacts.
Import Py Sender Spec.

(** C6.  Entered with [sent_today >= daily_limit], [send_email] (either
    variant) returns [False], asks nothing of the transport and leaves the
    counter and the log as they were. *)
Theorem send_email_refuses_at_limit (cfg : config) (st : state) (w : world)
    (c : contact) (template : str) :
  (daily_limit st <= sent_today st)%Z ->
  Batch.send_email cfg st w c template = (st, false, []) /\
  Continuous.send_email cfg st w c template = (st, false, []).
Proof.
  intros H. apply Z.leb_le in H.
  unfold Batch.send_email, Continuous.send_email. by rewrite H.
Qed.

Lemma send_email_refuses_at_limit_witness :
  Batch.send_email plain_config (yesterday 2) (fair_world 100) bob
    short_template = (yesterday 2, false, []) /\
  Continuous.send_email plain_config (yesterday 2) (fair_world 100) bob
    short_template = (yesterday 2, false, []).
Proof.
  apply (send_email_refuses_at_limit plain_config (yesterday 2)
           (fair_world 100) bob short_template).
  vm_compute. discriminate.
Defined.

(** C5, the code at the failing input.  The limit of day 100 was reached and
    the clock reads day 101: [send_email] refuses without resetting the
    counter, and the loop of [run_continuous] sleeps until the next day
    boundary. *)
Theorem counter_not_reset_on_new_day :
  (last_sent_date (yesterday 2) < today_check (fair_world 101))%Z /\
  Batch.send_email plain_config (yesterday 2) (fair_world 101) bob
    short_template = (yesterday 2, false, []) /\
  Continuous.send_email plain_config (yesterday 2) (fair_world 101) bob
    short_template = (yesterday 2, false, []) /\
  Continuous.continuous_turn plain_config short_template [bob] (yesterday 2)
    (fair_world 101)
  = (yesterday 2, Continuous.SleptUntilNextDay (86395000000 # 1000000), []).
Proof. repeat split; try reflexivity. Qed.

(** Once the limit is reached the loop of [run_continuous] only sleeps,
    whatever the clock reads: the state never changes again and nothing is
    sent. *)
Lemma continuous_loop_stuck (cfg : config) (template : str)
    (contacts_df : list contact) (ws : nat -> world) (st : state) :
  (daily_limit st <= sent_today st)%Z ->
  forall turns i,
    let '(st', _, events) :=
      Continuous.continuous_loop cfg template contacts_df ws i turns st in
    st' = st /\ events = [].
Proof.
  intros H. apply Z.leb_le in H.
  induction turns as [|turns IH]; intros i; simpl; [done|].
  unfold Continuous.continuous_turn.
  destruct (get_unsent_contacts (sent_log st) contacts_df) as [|c rest];
    [done|].
  rewrite H. specialize (IH (S i)).
  destruct (Continuous.continuous_loop cfg template contacts_df ws (S i)
              turns st) as [[st' ts] events].
  destruct IH as [-> ->]. done.
Qed.

End LimitFacts.

(** ** The batch *)

Section BatchFacts.
Import Py Sender Spec.









End BatchFacts.

(** ** The extractor *)

Section TextFacts.
Import Py Spec.

Lemma eqb_chr_true (a b : ascii) : eqb_chr a b = true <-> a = b.
Proof. apply Ascii.eqb_eq. Qed.

Lemma lstrip_head (s : str) :
  match lstrip s with
  | c :: _ => isspace c = false
  | [] => True
  end.
Proof.
  induction s as [|c s IH]; simpl; [done|].
  destruct (isspace c) eqn:E; [done|]. exact E.
Qed.

Lemma strip_not_blank (s : str) : strip s <> [] -> blank (strip s) = false.
Proof.
  unfold strip, rstrip, blank. intros H.
  pose proof (lstrip_head (rev (lstrip s))) as Hd.
  destruct (lstrip (rev (lstrip s))) as [|c r]; [done|].
  simpl. rewrite forallb_app. simpl. rewrite Hd.
  by rewrite andb_false_r.
Qed.

Lemma blank_with (a b : str) (c : ascii) :
  isspace c = false -> blank (a ++ c :: b) = false.
Proof.
  intros H. unfold blank. rewrite forallb_app. simpl. rewrite H.
  by rewrite andb_false_r.
Qed.

Lemma startswith_app (p b : str) : startswith (p ++ b) p = true.
Proof.
  induction p as [|c p IH]; simpl; [by destruct b|].
  rewrite IH. by rewrite (proj2 (eqb_chr_true c c) eq_refl).
Qed.

Lemma contains_prefix (s p : str) :
  startswith s p = true -> contains s p = true.
Proof. intros H. destruct s; cbn [contains]; by rewrite H. Qed.

Lemma contains_middle (a p b : str) : contains (a ++ p ++ b) p = true.
Proof.
  induction a as [|c a IH]; simpl.
  - apply contains_prefix, startswith_app.
  - rewrite IH. apply orb_true_r.
Qed.

Lemma split_chr_without (sep : ascii) (s : str) :
  forallb (fun c => negb (eqb_chr c sep)) s = true -> split_chr sep s = [s].
Proof.
  induction s as [|c s IH]; simpl; [done|].
  intros H. apply andb_true_iff in H as [Hc Hs].
  apply negb_true_iff in Hc. rewrite Hc, (IH Hs). done.
Qed.

Lemma split_chr_first (sep : ascii) (a b : str) :
  forallb (fun c => negb (eqb_chr c sep)) a = true ->
  split_chr sep (a ++ sep :: b) = a :: split_chr sep b.
Proof.
  induction a as [|c a IH]; simpl.
  - intros _. by rewrite (proj2 (eqb_chr_true sep sep) eq_refl).
  - intros H. apply andb_true_iff in H as [Hc Ha].
    apply negb_true_iff in Hc. rewrite Hc, (IH Ha). done.
Qed.

(** A class that rejects [sep] holds no [sep]. *)
Lemma class_without (cls : ascii -> bool) (sep : ascii) (s : str) :
  cls sep = false -> forallb cls s = true ->
  forallb (fun c => negb (eqb_chr c sep)) s = true.
Proof.
  intros Hsep. induction s as [|c s IH]; simpl; [done|].
  intros H. apply andb_true_iff in H as [Hc Hs]. rewrite (IH Hs).
  destruct (eqb_chr c sep) eqn:E; [|done].
  apply eqb_chr_true in E. congruence.
Qed.

End TextFacts.

Section RegexFacts.
Import Py Re Spec.

(** A repetition matches characters of its class, then what follows. *)
Lemma rep_shape (cls : ascii -> bool) (lo : nat)
    (k : option ascii -> str -> option str) (s : str) :
  forall n prev m,
    rep cls lo k n prev s = Some m ->
    exists a b prev' s',
      m = a ++ b /\ forallb cls a = true /\ k prev' s' = Some b.
Proof.
  induction s as [|c s IH]; intros n prev m; simpl.
  - destruct (lo <=? n); [|done]. intros H.
    exists [], m, prev, []. done.
  - assert (Hstop : (if lo <=? n then k prev (c :: s) else None) = Some m ->
              exists a b prev' s',
                m = a ++ b /\ forallb cls a = true /\ k prev' s' = Some b).
    { destruct (lo <=? n); [|done]. intros H.
      exists [], m, prev, (c :: s). done. }
    destruct (cls c) eqn:Hc; [|exact Hstop].
    destruct (rep cls lo k (S n) (Some c) s) as [m'|] eqn:E; [|exact Hstop].
    intros [= <-]. apply IH in E as (a & b & prev' & s' & -> & Ha & Hk).
    exists (c :: a), b, prev', s'. simpl. by rewrite Hc, Ha.
Qed.

Lemma findall_aux_matches (p : list re_item) (s : str) :
  forall prev skip m,
    m ∈ findall_aux p prev skip s ->
    exists prev' s', match_here p prev' s' = Some m.
Proof.
  induction s as [|c s IH]; intros prev skip m; simpl.
  - by rewrite elem_of_nil.
  - destruct skip as [|skip]; [|apply IH].
    destruct (match_here p prev (c :: s)) as [[|x m']|] eqn:E;
      try apply IH.
    rewrite elem_of_cons. intros [->|H]; [by eauto|by eapply IH].
Qed.

End RegexFacts.

Section ExtractorFacts.
Import Py Re Extractor Spec.

Lemma email_match_shape (prev : option ascii) (s m : str) :
  match_here email_pattern prev s = Some m -> email_shape m.
Proof.
  unfold email_pattern. cbn [match_here].
  destruct (at_boundary prev s); [|done]. intros H.
  apply rep_shape in H as (l & b & p1 & s1 & -> & Hl & H).
  cbn [match_here] in H. destruct s1 as [|c1 s1]; [done|].
  destruct (eqb_chr "@" c1) eqn:E1; [|done].
  apply eqb_chr_true in E1 as <-.
  destruct (rep domain_chr 1 _ 0 (Some "@"%char) s1) as [m1|] eqn:H1; [|done].
  injection H as <-.
  apply rep_shape in H1 as (d & b & p2 & s2 & -> & Hd & H).
  cbn [match_here] in H. destruct s2 as [|c2 s2]; [done|].
  destruct (eqb_chr "." c2) eqn:E2; [|done].
  apply eqb_chr_true in E2 as <-.
  destruct (rep tld_chr 2 _ 0 (Some "."%char) s2) as [m2|] eqn:H2; [|done].
  injection H as <-.
  apply rep_shape in H2 as (t & b & p3 & s3 & -> & Ht & H).
  cbn [match_here] in H. destruct (at_boundary p3 s3); [|done].
  injection H as <-. exists l, d, t. by rewrite app_nil_r.
Qed.

Lemma count_at_without (s : str) :
  forallb (fun c => negb (eqb_chr c "@")) s = true -> count_at s = 0.
Proof.
  unfold count_at. induction s as [|c s IH]; [done|].
  cbn [forallb List.filter]. intros H. apply andb_true_iff in H as [Hc Hs].
  apply negb_true_iff in Hc.
  destruct (eqb_chr "@" c) eqn:E; [|by apply IH].
  apply eqb_chr_true in E as <-. done.
Qed.

Lemma email_shape_valid (m : str) : email_shape m -> passes_validation m.
Proof.
  intros (l & d & t & -> & Hl & Hd & Ht).
  assert (Nl : forallb (fun c => negb (eqb_chr c "@")) l = true)
    by (by apply (class_without local_chr)).
  assert (Nr : forallb (fun c => negb (eqb_chr c "@"))
                 (d ++ "."%char :: t) = true).
  { rewrite forallb_app. cbn [forallb].
    rewrite (class_without domain_chr "@" d), (class_without tld_chr "@" t);
      done. }
  assert (A : after_at (l ++ "@"%char :: d ++ "."%char :: t)
              = Some (d ++ "."%char :: t)).
  { unfold after_at. by rewrite split_chr_first, split_chr_without. }
  assert (D : contains (d ++ "."%char :: t) (txt ".") = true)
    by apply (contains_middle d (txt ".") t).
  repeat split.
  - unfold count_at. rewrite List.filter_app, length_app.
    fold (count_at l). rewrite (count_at_without l Nl).
    cbn [List.filter]. change (eqb_chr "@" "@") with true. cbn [length].
    fold (count_at (d ++ "."%char :: t)).
    by rewrite (count_at_without _ Nr).
  - eauto.
  - assert (C : contains (l ++ "@"%char :: d ++ "."%char :: t) (txt "@")
                = true)
      by apply (contains_middle l (txt "@") (d ++ "."%char :: t)).
    unfold invalid_email. rewrite C. cbn [negb]. by rewrite A, D.
Qed.

Lemma email_shape_not_blank (m : str) : email_shape m -> blank m = false.
Proof. intros (l & d & t & -> & _). by apply blank_with. Qed.

Lemma findall_email_shape (line email : str) :
  email ∈ findall email_pattern line -> email_shape email.
Proof.
  intros H. apply findall_aux_matches in H as (prev & s & H).
  by eapply email_match_shape.
Qed.

Lemma clean_filled (s : str) (default : str) :
  blank default = false ->
  blank (if nonempty (clean s) then clean s else default) = false.
Proof.
  intros H. destruct (clean s) eqn:E; cbn [nonempty]; [done|].
  rewrite <- E. unfold clean in *. apply strip_not_blank. by rewrite E.
Qed.

(** The last step builds a contact, with every field filled, whenever the
    address has the shape of a match. *)
Lemma emit_filled (line_num : nat) (line sno name title company email : str) :
  email_shape email ->
  exists c,
    emit line_num line sno name title company email = Some (inl c) /\
    all_fields_filled c /\ Extractor.email c = email.
Proof.
  intros Hshape. unfold emit.
  destruct (email_shape_valid email Hshape) as (_ & _ & ->).
  eexists. split; [done|]. split; [|done].
  repeat split; cbn [Extractor.hr_name position Extractor.company
                     Extractor.email].
  - by apply clean_filled.
  - by apply clean_filled.
  - destruct (nonempty (clean company)) eqn:E; [|done].
    destruct (negb (eqb_str (clean company) Unknown_Company)); [|done].
    cbn [andb]. pose proof (clean_filled company HR_Manager eq_refl) as F.
    by rewrite E in F.
  - by apply email_shape_not_blank.
Qed.

(** One line gives a contact with every field filled and the first match as
    its address, or, when nothing matches, the diagnostic of line 54. *)
Lemma parse_line_total (line_num : nat) (line : str) :
  exists r,
    parse_line line_num line = Some r /\
    match r with
    | inl c => all_fields_filled c /\
               head (findall email_pattern line) = Some (Extractor.email c)
    | inr k => reason k = txt "No email found" /\
               findall email_pattern line = []
    end.
Proof.
  unfold parse_line.
  destruct (findall email_pattern line) as [|email others] eqn:F.
  { eexists. split; [done|]. done. }
  destruct (fields_of_parts _) as [[[sno name] title] company].
  destruct (emit_filled line_num line sno name title company email)
    as (c & -> & Hc & He).
  { apply (findall_email_shape line). rewrite F. by left. }
  exists (inl c). rewrite He. done.
Qed.

Lemma parse_lines_total (lines : list str) :
  forall line_num,
    exists contacts skipped_lines,
      parse_lines line_num lines = Some (contacts, skipped_lines) /\
      Forall all_fields_filled contacts /\
      Forall (fun k => reason k = txt "No email found") skipped_lines.
Proof.
  induction lines as [|line rest IH]; intros line_num; cbn [parse_lines].
  { exists [], []. done. }
  destruct (parse_line_total line_num line) as (r & -> & Hr).
  destruct (IH (S line_num)) as (cs & sk & -> & Hcs & Hsk).
  destruct r as [c|k].
  - exists (c :: cs), sk. destruct Hr as [Hc _].
    split; [done|]. split; [by constructor|done].
  - exists cs, (k :: sk). destruct Hr as [Hk _].
    split; [done|]. split; [done|by constructor].
Qed.

(** C8.  The extractor returns, and every contact it emits has a name, a
    title, a company and an address that hold more than whitespace. *)
Theorem emitted_fields_never_blank (text : str) :
  exists contacts skipped_lines,
    parse_hr_data_improved text = Some (contacts, skipped_lines) /\
    Forall all_fields_filled contacts.
Proof.
  destruct (parse_lines_total (data_lines text) 1) as (cs & sk & H & Hcs & _).
  by exists cs, sk.
Qed.

(** C10.  Every match of the pattern holds exactly one at sign and a dot in
    what follows it, so the validation of lines 155-162 never fails; the
    extractor returns, and every line it skips carries the reason of
    line 54. *)
Theorem invalid_email_branch_unreachable (text : str) :
  (forall line : str,
     Forall passes_validation (findall email_pattern line)) /\
  exists contacts skipped_lines,
    parse_hr_data_improved text = Some (contacts, skipped_lines) /\
    Forall (fun k => reason k = txt "No email found") skipped_lines.
Proof.
  split.
  - intros line. apply Forall_forall. intros email H.
    by apply email_shape_valid, (findall_email_shape line).
  - destruct (parse_lines_total (data_lines text) 1)
      as (cs & sk & H & _ & Hsk).
    by exists cs, sk.
Qed.

(** C2, as stated, fails: the record built from the line of the example is
    not the one the specification gives. *)
Lemma john_smith_not_split :
  ~ exists skipped_lines,
      parse_hr_data_improved john_line = Some ([john_expected], skipped_lines).
Proof. intros (sk & H). vm_compute in H. discriminate. Qed.

(** C2, amended.  The line of the example gives exactly one record: company
    [Acme Corp], address [john.smith@acme.com], the default name
    [HR Manager] and the title [John Smith Senior Recruiter]; the serial
    number is consumed and no line is skipped. *)
Theorem john_smith_extracted :
  parse_hr_data_improved john_line = Some ([john_extracted], []).
Proof. by vm_compute. Qed.

End ExtractorFacts.

(** ** Templates *)

Section TemplateFacts.
Import Py Sender Spec.


(** The default template that [load_email_template] writes when the file is
    missing is not validated either: the braces of its style sheet are read
    as a field. *)
Lemma default_template_raises :
  fst (load_email_template None) = default_template /\
  snd (personalize_email plain_config default_template bob)
    = Raises (KeyError (txt " font-family")).
Proof. split; by vm_compute. Qed.

Lemma eqb_str_true (a b : str) : eqb_str a b = true <-> a = b.
Proof.
  revert b. induction a as [|x a IH]; intros [|y b]; simpl; try done.
  rewrite andb_true_iff, eqb_chr_true, IH. split.
  - by intros [-> ->].
  - by intros [= -> ->].
Qed.

Lemma format_aux_literal (kwargs : list (str * str)) (before s : str) :
  forallb literal_chr before = true ->
  forall out,
    format_aux kwargs Literal [] out (before ++ s)
    = format_aux kwargs Literal [] (rev before ++ out) s.
Proof.
  induction before as [|c r IH]; [done|].
  cbn [forallb]. intros H out. apply andb_true_iff in H as [Hc Hr].
  unfold literal_chr in Hc. apply andb_true_iff in Hc as [H1 H2].
  apply negb_true_iff in H1, H2.
  cbn [app format_aux step]. rewrite H1, H2, (IH Hr).
  cbn [rev]. by rewrite <- app_assoc.
Qed.

Lemma name_step_plain (kwargs : list (str * str)) (name out : str)
    (c : ascii) :
  name_chr c = true ->
  name_step kwargs name out c = Go (FieldName (c :: name) false) [] out.
Proof.
  unfold name_chr, name_step. cbn [existsb list_ascii_of_string].
  intros H. apply negb_true_iff in H.
  repeat (apply orb_false_iff in H as [? H]).
  by repeat match goal with E : eqb_chr c _ = false |- _ => rewrite E; clear E end.
Qed.

Lemma format_aux_name (kwargs : list (str * str)) (name after : str) :
  forallb name_chr name = true ->
  forall acc out,
    format_aux kwargs (FieldName acc false) [] out
      (name ++ "}"%char :: after)
    = match end_field kwargs (rev acc ++ name) true out with
      | Go mode field out' => format_aux kwargs mode field out' after
      | Stop r => r
      end.
Proof.
  induction name as [|c r IH]; intros H acc out.
  - cbn [app format_aux step]. unfold name_step.
    change (eqb_chr "}" "{") with false. change (eqb_chr "}" "[") with false.
    change (eqb_chr "}" "}") with true. cbn [negb andb orb].
    by rewrite app_nil_r.
  - cbn [forallb] in H. apply andb_true_iff in H as [Hc Hr].
    cbn [app format_aux step]. rewrite (name_step_plain _ _ _ _ Hc).
    rewrite (IH Hr). cbn [rev]. by rewrite <- app_assoc.
Qed.






End TemplateFacts.

(** ** The adaptive delay *)

Section DelayFacts.
Import Py Sender Spec.
Local Open Scope Q_scope.

(** C9, as stated, fails.  With one message left and 41 seconds to go the
    quarter band [30.75, 51.25] lies inside [30, 300], and the delay can be
    30: the bounds handed to [random.randint] are cut to whole seconds. *)
Lemma smart_delay_leaves_quarter_band :
  let st := yesterday 1 in
  let t := target st late_now in
  (sent_today st < daily_limit st)%Z /\
  t == 41 /\ 30 <= t * 0.75 /\ t * 1.25 <= 300 /\
  Continuous.calculate_smart_delay st late_now lowest = (st, 30%Z) /\
  ~ t * 0.75 <= inject_Z 30.
Proof.
  repeat split; try reflexivity; try (vm_compute; discriminate).
  vm_compute. intros H. by apply H.
Qed.

(** The limit of day 100 was reached and the clock reads day 101: the
    counter is reset first, and the delay is not the time to midnight. *)
Lemma smart_delay_after_rollover :
  (daily_limit (yesterday 2) <= sent_today (yesterday 2))%Z /\
  Continuous.calculate_smart_delay (yesterday 2) (DateTime 101 0) lowest
  = (set_counter (yesterday 2) 0 101, 30%Z) /\
  py_int (total_seconds (86400000000 - 0)) = 86400%Z.
Proof. repeat split; reflexivity. Qed.

Lemma Qlt_bool_true (a b : Q) : Qlt_bool a b = true <-> a < b.
Proof.
  unfold Qlt_bool. rewrite negb_true_iff. split.
  - intros H. apply Qnot_le_lt. intros L.
    apply Qle_bool_iff in L. congruence.
  - intros H. destruct (Qle_bool b a) eqn:E; [|done].
    apply Qle_bool_iff in E. exfalso. by apply (Qlt_not_le a b).
Qed.

Lemma Qlt_bool_false (a b : Q) : Qlt_bool a b = false <-> b <= a.
Proof.
  unfold Qlt_bool. rewrite negb_false_iff. apply Qle_bool_iff.
Qed.

Lemma py_max_bounds (a b : Q) :
  a <= py_max a b /\ b <= py_max a b /\ (b <= a -> py_max a b = a) /\
  (a <= b -> py_max a b == b).
Proof.
  unfold py_max. destruct (Qlt_bool a b) eqn:E.
  - apply Qlt_bool_true in E. repeat split; intros; lra.
  - apply Qlt_bool_false in E. repeat split; intros; try done; lra.
Qed.

Lemma py_min_bounds (a b : Q) :
  py_min a b <= a /\ py_min a b <= b /\ (a <= b -> py_min a b == a) /\
  (b <= a -> py_min a b == b).
Proof.
  unfold py_min. destruct (Qlt_bool b a) eqn:E.
  - apply Qlt_bool_true in E. repeat split; intros; lra.
  - apply Qlt_bool_false in E. repeat split; intros; lra.
Qed.

Lemma py_int_floor (x : Q) : 0 <= x -> py_int x = Qfloor x.
Proof.
  destruct x as [n d]. unfold Qle, py_int, Qfloor. simpl. intros H.
  apply Z.quot_div_nonneg; lia.
Qed.

Lemma py_int_mono (x y : Q) : 0 <= x -> x <= y -> (py_int x <= py_int y)%Z.
Proof.
  intros Hx Hxy. rewrite !py_int_floor by lra. by apply Qfloor_resp_le.
Qed.

Lemma py_int_sandwich (x : Q) (z : Z) :
  0 <= x -> (py_int x <= z)%Z -> x - 1 < inject_Z z.
Proof.
  intros Hx Hz. rewrite py_int_floor in Hz by done.
  pose proof (Qlt_floor x) as F. rewrite inject_Z_plus in F.
  assert (inject_Z (Qfloor x) <= inject_Z z) by (by rewrite <- Zle_Qle).
  change (inject_Z 1) with 1 in F. lra.
Qed.

Lemma py_int_below (x : Q) (z : Z) :
  0 <= x -> (z <= py_int x)%Z -> inject_Z z <= x.
Proof.
  intros Hx Hz. rewrite py_int_floor in Hz by done.
  pose proof (Qfloor_le x) as F.
  assert (inject_Z z <= inject_Z (Qfloor x)) by (by rewrite <- Zle_Qle).
  lra.
Qed.

(** C9, amended.  [calculate_smart_delay] first resets the counter when the
    date is past [last_sent_date].  Below the limit the delay is a whole
    number of seconds between 30 and 300, and when the quarter band around
    [remainingSeconds / remainingQuota] lies inside [30, 300] the delay lies
    between the two ends of the band cut to whole seconds, so above three
    quarters of the target minus one second and at most five quarters of it.
    At the limit the delay is the time to the next day boundary cut to whole
    seconds. *)
Theorem smart_delay_bounds (st : state) (now : datetime)
    (randint : Z -> Z -> Z) :
  (forall a b, (a <= b)%Z -> (a <= randint a b <= b)%Z) ->
  let st1 :=
    if (last_sent_date st <? date now)%Z
    then set_counter st 0 (date now) else st in
  let t := target st1 now in
  exists delay,
    Continuous.calculate_smart_delay st now randint = (st1, delay) /\
    ((sent_today st1 < daily_limit st1)%Z ->
       (30 <= delay <= 300)%Z /\
       (30 <= t * 0.75 -> t * 1.25 <= 300 ->
          (py_int (t * 0.75) <= delay <= py_int (t * 1.25))%Z /\
          t * 0.75 - 1 < inject_Z delay /\ inject_Z delay <= t * 1.25)) /\
    ((daily_limit st1 <= sent_today st1)%Z ->
       delay = py_int (total_seconds (86400000000 - micros now))).
Proof.
  intros Hrand st1 t. unfold Continuous.calculate_smart_delay.
  fold st1. destruct (daily_limit st1 <=? sent_today st1)%Z eqn:Hlim.
  { apply Z.leb_le in Hlim. eexists. split; [done|]. split; [lia|done]. }
  apply Z.leb_gt in Hlim.
  assert ((0 <? daily_limit st1 - sent_today st1)%Z = true) as ->
    by (apply Z.ltb_lt; lia).
  fold (target st1 now). fold t.
  destruct (py_max_bounds 30 (t * 0.75)) as (M1 & M2 & _ & M4).
  destruct (py_min_bounds 300 (t * 1.25)) as (N1 & N2 & _ & N4).
  set (mn := py_max 30 (t * 0.75)) in *.
  set (mx := py_min 300 (t * 1.25)) in *.
  destruct (Qle_bool mx mn) eqn:E.
  - apply Qle_bool_iff in E.
    eexists. split; [done|]. split; [|lia]. intros _.
    change (py_int 30) with 30%Z. change (py_int 120) with 120%Z.
    pose proof (Hrand 30%Z 120%Z ltac:(lia)) as R. split; [lia|].
    intros B1 B2. specialize (M4 B1). specialize (N4 B2). lra.
  - assert (L : mn < mx).
    { apply Qnot_le_lt. intros L. apply Qle_bool_iff in L. congruence. }
    assert (P : (py_int mn <= py_int mx)%Z) by (apply py_int_mono; lra).
    pose proof (Hrand _ _ P) as R.
    assert (P30 : (30 <= py_int mn)%Z)
      by (apply (py_int_mono 30 mn); lra).
    assert (P300 : (py_int mx <= 300)%Z)
      by (apply (py_int_mono mx 300); lra).
    eexists. split; [done|]. split; [|lia]. intros _. split; [lia|].
    intros B1 B2. specialize (M4 B1). specialize (N4 B2).
    assert (Emn : py_int mn = py_int (t * 0.75))
      by (apply Z.le_antisymm; apply py_int_mono; lra).
    assert (Emx : py_int mx = py_int (t * 1.25))
      by (apply Z.le_antisymm; apply py_int_mono; lra).
    rewrite <- Emn, <- Emx. split; [lia|]. split.
    + apply py_int_sandwich; [lra|]. rewrite <- Emn. lia.
    + apply py_int_below; [lra|]. rewrite <- Emx. lia.
Qed.

Lemma smart_delay_bounds_witness :
  let st1 := yesterday 1 in
  let t := target st1 late_now in
  exists delay,
    Continuous.calculate_smart_delay (yesterday 1) late_now lowest
      = (st1, delay) /\
    ((sent_today st1 < daily_limit st1)%Z ->
       (30 <= delay <= 300)%Z /\
       (30 <= t * 0.75 -> t * 1.25 <= 300 ->
          (py_int (t * 0.75) <= delay <= py_int (t * 1.25))%Z /\
          t * 0.75 - 1 < inject_Z delay /\ inject_Z delay <= t * 1.25)) /\
    ((daily_limit st1 <= sent_today st1)%Z ->
       delay = py_int (total_seconds (86400000000 - micros late_now))).
Proof.
  apply (smart_delay_bounds (yesterday 1) late_now lowest).
  intros a b H. unfold lowest. lia.
Defined.

End DelayFacts.

(** * Further properties of the code *)

(** ** De-duplication: nothing is lost and the first occurrence wins *)

Section DedupMore.
Import Py Extractor Spec.

Lemma dedup_loop_splits (l : list contact) :
  forall seen,
    let '(u, d) := dedup_loop seen l in
    length u + length d = length l /\
    sublist u l /\ sublist d l /\ u ++ d ≡ₚ l.
Proof.
  induction l as [|x l IH]; intros seen; simpl; [done|].
  destruct (decide (lower (email x) ∉ seen)).
  - specialize (IH ({[lower (email x)]} ∪ seen)).
    destruct (dedup_loop _ l) as [u d]. destruct IH as (L & U & D & P).
    repeat split.
    + simpl. lia.
    + by apply sublist_skip.
    + by apply sublist_cons.
    + simpl. by rewrite P.
  - specialize (IH seen).
    destruct (dedup_loop _ l) as [u d]. destruct IH as (L & U & D & P).
    repeat split.
    + simpl. lia.
    + by apply sublist_cons.
    + by apply sublist_skip.
    + rewrite <- P. symmetry. apply Permutation_middle.
Qed.

Lemma dedup_loop_covers (l : list contact) :
  forall seen c,
    c ∈ l -> key c ∈ seen \/ key c ∈ map key (dedup_loop seen l).1.
Proof.
  induction l as [|x l IH]; intros seen c; simpl.
  - by rewrite elem_of_nil.
  - rewrite elem_of_cons. intros Hc.
    destruct (decide (lower (email x) ∉ seen)) as [Hx|Hx].
    + specialize (IH ({[lower (email x)]} ∪ seen) c).
      destruct (dedup_loop _ l) as [u d]. simpl in *.
      destruct Hc as [->|Hc]; [right; by left|].
      destruct (IH Hc) as [H|H]; [|right; by right].
      apply elem_of_union in H as [H|H]; [|by left].
      apply elem_of_singleton in H. right. rewrite H. by left.
    + specialize (IH seen c).
      destruct (dedup_loop _ l) as [u d]. simpl in *.
      destruct Hc as [->|Hc]; [|by apply IH].
      left. by apply dec_stable.
Qed.

(** X1.  The two lists of the de-duplication split the input: every contact is
    kept or reported, none twice, and both lists keep the input order. *)
Theorem dedup_partitions (contacts : list contact) :
  let '(unique_contacts, duplicates) := dedup contacts in
  unique_contacts ++ duplicates ≡ₚ contacts /\
  length unique_contacts + length duplicates = length contacts /\
  sublist unique_contacts contacts /\ sublist duplicates contacts.
Proof.
  pose proof (dedup_loop_splits contacts ∅) as H. unfold dedup.
  destruct (dedup_loop ∅ contacts) as [u d]. tauto.
Qed.

(** X2.  The kept contacts carry pairwise different addresses up to letter case,
    and exactly the addresses of the input; the first contact of the input
    is always kept first. *)
Theorem dedup_keeps_one_per_address (contacts : list contact) :
  let unique_contacts := (dedup contacts).1 in
  NoDup (map key unique_contacts) /\
  (forall e, e ∈ map key unique_contacts <-> e ∈ map key contacts) /\
  head unique_contacts = head contacts.
Proof.
  intros u. split; [apply dedup_loop_unique_NoDup|]. split.
  - intros e. split.
    + intros H. apply list_elem_of_fmap in H as (c & -> & Hc).
      apply list_elem_of_fmap_2.
      pose proof (dedup_loop_splits contacts ∅) as S. unfold u, dedup in Hc.
      destruct (dedup_loop ∅ contacts) as [u' d]. simpl in Hc.
      destruct S as (_ & S & _). by eapply elem_of_sublist.
    + intros H. apply list_elem_of_fmap in H as (c & -> & Hc).
      destruct (dedup_loop_covers contacts ∅ c Hc) as [H|H]; [|done].
      by apply not_elem_of_empty in H.
  - unfold u, dedup. destruct contacts as [|x l]; [done|]. simpl.
    destruct (decide (lower (email x) ∉ ∅)) as [_|H].
    + by destruct (dedup_loop _ l).
    + exfalso. apply H, not_elem_of_empty.
Qed.

End DedupMore.

(** ** The extractor: which line gives what *)

Section ExtractorMore.
Import Py Re Extractor Spec.

Lemma rep_prefix (cls : ascii -> bool) (lo : nat)
    (k : option ascii -> str -> option str) :
  (forall prev s m, k prev s = Some m -> exists r, s = m ++ r) ->
  forall s n prev m,
    rep cls lo k n prev s = Some m -> exists r, s = m ++ r.
Proof.
  intros Hk. induction s as [|c s IH]; intros n prev m; simpl.
  - destruct (lo <=? n); [apply Hk|done].
  - assert (Hstop : (if lo <=? n then k prev (c :: s) else None) = Some m ->
              exists r, c :: s = m ++ r)
      by (destruct (lo <=? n); [apply Hk|done]).
    destruct (cls c); [|exact Hstop].
    destruct (rep cls lo k (S n) (Some c) s) as [m'|] eqn:E; [|exact Hstop].
    intros [= <-]. apply IH in E as [r ->]. by exists r.
Qed.

(** What the matcher returns is the text it consumed. *)
Lemma match_here_prefix (p : list re_item) :
  forall prev s m, match_here p prev s = Some m -> exists r, s = m ++ r.
Proof.
  induction p as [|item p IH]; intros prev s m; cbn [match_here].
  - intros [= <-]. by exists s.
  - destruct item as [|cls|cls lo].
    + destruct (at_boundary prev s); [apply IH|done].
    + destruct s as [|c s]; [done|]. destruct (cls c); [|done].
      destruct (match_here p (Some c) s) as [m'|] eqn:E; [|done].
      intros [= <-]. apply IH in E as [r ->]. by exists r.
    + by apply rep_prefix.
Qed.

Lemma findall_aux_substring (p : list re_item) (s : str) :
  forall prev skip m,
    m ∈ findall_aux p prev skip s -> exists a b, s = a ++ m ++ b.
Proof.
  induction s as [|c s IH]; intros prev skip m; simpl.
  - by rewrite elem_of_nil.
  - assert (Hrest : forall prev' skip',
              m ∈ findall_aux p prev' skip' s ->
              exists a b, c :: s = a ++ m ++ b).
    { intros prev' skip' H. apply IH in H as (a & b & ->).
      by exists (c :: a), b. }
    destruct skip as [|skip]; [|apply Hrest].
    destruct (match_here p prev (c :: s)) as [[|x m']|] eqn:E;
      try apply Hrest.
    rewrite elem_of_cons. intros [->|H]; [|by eapply Hrest].
    apply match_here_prefix in E as [r E]. exists [], r. by rewrite E.
Qed.

Lemma parse_line_cases (line_num : nat) (line : str) :
  match findall email_pattern line with
  | [] =>
      parse_line line_num line
      = Some (inr (Skipped line_num line (txt "No email found")))
  | first :: _ =>
      exists c, parse_line line_num line = Some (inl c) /\
                Extractor.email c = first
  end.
Proof.
  unfold parse_line.
  destruct (findall email_pattern line) as [|first others] eqn:F; [done|].
  destruct (fields_of_parts _) as [[[sno name] title] company].
  destruct (emit_filled line_num line sno name title company first)
    as (c & -> & _ & He).
  { apply (findall_email_shape line). rewrite F. by left. }
  by exists c.
Qed.

Lemma parse_lines_accounts (lines : list str) :
  forall n,
    exists contacts skipped_lines,
      parse_lines n lines = Some (contacts, skipped_lines) /\
      map Extractor.email contacts
      = omap (fun l => head (findall email_pattern l)) lines /\
      map content skipped_lines
      = filter (fun l => findall email_pattern l = []) lines /\
      length contacts + length skipped_lines = length lines /\
      Forall (fun k => n <= line_num k /\
                       lines !! (line_num k - n) = Some (content k))
        skipped_lines.
Proof.
  induction lines as [|line rest IH]; intros n; cbn [parse_lines].
  { exists [], []. repeat split; constructor. }
  destruct (IH (S n)) as (cs & sk & -> & He & Hc & Hl & Hn).
  assert (Hn' : Forall (fun k => n <= line_num k /\
                   (line :: rest) !! (line_num k - n) = Some (content k)) sk).
  { eapply Forall_impl; [exact Hn|]. intros k [H1 H2]. split; [lia|].
    replace (line_num k - n) with (S (line_num k - S n)) by lia. done. }
  pose proof (parse_line_cases n line) as P.
  rewrite filter_cons. cbn [omap list_omap].
  destruct (findall email_pattern line) as [|first others].
  - rewrite P. exists cs, (Skipped n line (txt "No email found") :: sk).
    rewrite decide_True by done. cbn [head].
    repeat split; simpl; try done; try lia; try congruence.
    constructor; [|done]. simpl. split; [lia|].
    by replace (n - n) with 0 by lia.
  - destruct P as (c & -> & Hc1). exists (c :: cs), sk.
    rewrite decide_False by done. cbn [head].
    repeat split; simpl; try done; try lia; congruence.
Qed.

(** X3.  Every data line is accounted for, in order: a line with a match gives
    one contact whose address is the first match, a line without gives one
    skipped entry that holds the line and its number. *)
Theorem every_data_line_accounted (text : str) :
  exists contacts skipped_lines,
    parse_hr_data_improved text = Some (contacts, skipped_lines) /\
    map Extractor.email contacts
    = omap (fun l => head (findall email_pattern l)) (data_lines text) /\
    map content skipped_lines
    = filter (fun l => findall email_pattern l = []) (data_lines text) /\
    length contacts + length skipped_lines = length (data_lines text) /\
    Forall (fun k => 1 <= line_num k /\
                     data_lines text !! (line_num k - 1) = Some (content k))
      skipped_lines.
Proof. apply (parse_lines_accounts (data_lines text) 1). Qed.

(** X4.  The address of a contact stands in its line as it is, letter case
    included. *)
Theorem address_is_taken_from_the_line (line_num : nat) (line : str)
    (c : contact) :
  parse_line line_num line = Some (inl c) ->
  exists before after, line = before ++ Extractor.email c ++ after.
Proof.
  intros H. pose proof (parse_line_cases line_num line) as P.
  destruct (findall email_pattern line) as [|first others] eqn:F.
  - rewrite P in H. discriminate.
  - destruct P as (c' & P & <-). rewrite P in H. injection H as <-.
    apply (findall_aux_substring email_pattern line None 0).
    fold (findall email_pattern line). rewrite F. by left.
Qed.

Lemma address_is_taken_from_the_line_witness :
  exists before after,
    john_line = before ++ Extractor.email john_extracted ++ after.
Proof.
  apply (address_is_taken_from_the_line 1 john_line john_extracted).
  reflexivity.
Defined.

Lemma filter_none {A} (f : A -> bool) (l : list A) :
  Forall (fun x => f x = false) l -> List.filter f l = [].
Proof.
  induction 1 as [|x l Hx _ IH]; simpl; [done|]. by rewrite Hx.
Qed.

(** X5.  A text whose lines are all blank or begin with [SNo] or, in any letter
    case, with [name] gives neither a contact nor a skipped entry: such
    lines are left out before the loop, also when they hold an address. *)
Theorem header_like_lines_leave_no_trace (text : str) :
  Forall (fun l => strip l = [] \/
                   startswith (strip l) (txt "SNo") = true \/
                   startswith (lower (strip l)) (txt "name") = true)
    (split_chr newline text) ->
  parse_hr_data_improved text = Some ([], []).
Proof.
  intros H. unfold parse_hr_data_improved, data_lines.
  rewrite filter_none; [done|].
  apply Forall_fmap. eapply Forall_impl; [exact H|].
  intros l [E|[E|E]]; unfold compose; cbn beta.
  - by rewrite E.
  - rewrite E. cbn [negb]. by rewrite andb_false_r.
  - rewrite E. cbn [negb]. by rewrite andb_false_r.
Qed.

Lemma header_like_lines_leave_no_trace_witness :
  parse_hr_data_improved
    (txt "SNo Name Email" ++ [newline] ++
     txt "Nameeta Rao HR Head nameeta.rao@acme.com Acme Corp")
  = Some ([], []).
Proof.
  apply header_like_lines_leave_no_trace.
  repeat constructor; vm_compute; tauto.
Defined.

End ExtractorMore.

(** ** The extractor: from the parts of a line to its fields *)

Section FieldsMore.
Import Py Re Extractor Spec More.

Lemma find_email_index_app (xs ys : list str) :
  Forall not_marker xs ->
  forall i, find_email_index i (xs ++ EMAIL :: ys) = (i + Z.of_nat (length xs))%Z.
Proof.
  induction 1 as [|x xs Hx _ IH]; intros i; simpl.
  - change (eqb_str EMAIL EMAIL) with true. cbn [EMAIL]. lia.
  - unfold not_marker in Hx. rewrite Hx, IH. lia.
Qed.

Lemma digits_not_marker (p : str) : isdigit p = true -> not_marker p.
Proof.
  intros H. unfold not_marker. destruct (eqb_str p EMAIL) eqn:E; [|done].
  apply eqb_str_true in E. subst p. discriminate H.
Qed.

(** The fields of a list of parts in which the marker stands after [before]
    and before [after], with or without a serial number in front. *)
Lemma fields_of_parts_aligned (serial : option str)
    (before after : list str) :
  match serial with
  | Some sno => isdigit sno = true
  | None => match before with p :: _ => isdigit p = false | [] => True end
  end ->
  Forall not_marker before ->
  fields_of_parts (serial_parts serial ++ before ++ EMAIL :: after)
  = (serial_text serial, (name_and_title before).1,
     (name_and_title before).2, company_of after).
Proof.
  intros Hs Hb. unfold fields_of_parts.
  assert (T : take (length before) (before ++ EMAIL :: after) = before)
    by (by rewrite take_app_length).
  assert (D : drop (length before + 1) (before ++ EMAIL :: after) = after).
  { replace (length before + 1) with (length before + 1 + 0) by lia.
    rewrite <- Nat.add_assoc, <- drop_drop, drop_app_length. done. }
  assert (R : forall parts idx,
    parts = before ++ EMAIL :: after -> idx = Z.of_nat (length before) ->
    (if (0 <=? idx)%Z
     then
       let before_email := take (Z.to_nat idx) parts in
       let after_email :=
         if (idx <? Z.of_nat (length parts) - 1)%Z
         then drop (Z.to_nat (idx + 1)) parts else [] in
       let '(name, title) :=
         match before_email with
         | [] => (HR_Manager, HR_Representative)
         | [potential_name] =>
             if existsb (contains (lower potential_name)) title_words
             then (HR_Manager, potential_name)
             else (potential_name, HR_Representative)
         | first :: others => (first, join (txt " ") others)
         end in
       (serial_text serial, name, title,
        if nonempty after_email then join (txt " ") after_email
        else Unknown_Company)
     else (serial_text serial, HR_Manager, HR_Representative, Unknown_Company))
    = (serial_text serial, (name_and_title before).1,
       (name_and_title before).2, company_of after)).
  { intros parts idx -> ->.
    assert ((0 <=? Z.of_nat (length before))%Z = true) as ->
      by (apply Z.leb_le; lia).
    cbv zeta. rewrite Nat2Z.id, T.
    replace (Z.to_nat (Z.of_nat (length before) + 1))
      with (length before + 1) by lia.
    rewrite D. fold (name_and_title before).
    destruct (name_and_title before) as [name title]. cbn [fst snd].
    destruct (_ <? _)%Z eqn:C.
    - by destruct after.
    - apply Z.ltb_ge in C. rewrite length_app in C.
      destruct after; [done|]. simpl in C. lia. }
  destruct serial as [sno|]; cbn [serial_parts serial_text app].
  - cbn [find_email_index]. rewrite (digits_not_marker sno Hs), Hs.
    rewrite (find_email_index_app before after Hb).
    assert ((0 <=? 0 + 1 + Z.of_nat (length before))%Z = true) as ->
      by (apply Z.leb_le; lia).
    apply (R (before ++ EMAIL :: after)); [done|lia].
  - rewrite (find_email_index_app before after Hb).
    destruct before as [|p before'].
    + cbn [app]. change (isdigit EMAIL) with false. cbv iota.
      apply (R (EMAIL :: after)); [done|simpl; lia].
    + cbn [app]. rewrite Hs.
      apply (R (p :: before' ++ EMAIL :: after)); [done|lia].
Qed.

(** X6.  With the marker as a part of its own, the serial number in front is set
    aside and the index of the marker follows it: the parts before the
    marker give the name and the title, the parts after it the company. *)
Theorem fields_follow_the_marker (serial : option str)
    (before after : list str) :
  match serial with
  | Some sno => isdigit sno = true
  | None => match before with p :: _ => isdigit p = false | [] => True end
  end ->
  Forall not_marker before ->
  fields_of_parts (serial_parts serial ++ before ++ EMAIL :: after)
  = (serial_text serial, (name_and_title before).1,
     (name_and_title before).2, company_of after).
Proof. apply fields_of_parts_aligned. Qed.

Lemma fields_follow_the_marker_witness :
  fields_of_parts
    (serial_parts (Some (txt "7")) ++
     [txt "Jane Doe"; txt "HR Head"] ++ EMAIL :: [txt "Foo Ltd"])
  = (txt "7", txt "Jane Doe", txt "HR Head", txt "Foo Ltd").
Proof.
  apply (fields_follow_the_marker (Some (txt "7"))
           [txt "Jane Doe"; txt "HR Head"] [txt "Foo Ltd"]).
  - reflexivity.
  - repeat constructor.
Defined.

End FieldsMore.

(** ** The extractor: the fallback on single spaces *)

Section FallbackMore.
Import Py Re Extractor Spec More Fallback.

Lemma group_words_run (ws : list str) :
  forall parts cur,
    Forall not_marker ws ->
    (cur = [] -> match ws with w :: _ => isdigit w = false | [] => True end) ->
    group_words ws parts cur = parts ++ one_part (cur ++ ws).
Proof.
  induction ws as [|w ws IH]; intros parts cur Hm Hd; cbn [group_words].
  - rewrite app_nil_r. destruct cur; cbn [nonempty one_part]; [|done].
    by rewrite app_nil_r.
  - apply Forall_cons in Hm as [Hw Hm]. unfold not_marker in Hw. rewrite Hw.
    assert (isdigit w && (length cur =? 0) = false) as ->.
    { destruct cur; [|apply andb_false_r]. by rewrite (Hd eq_refl). }
    assert (G : group_words ws parts (cur ++ [w])
                = parts ++ one_part (cur ++ w :: ws)).
    { rewrite IH; [|done|by destruct cur]. by rewrite <- (app_assoc cur [w] ws). }
    by destruct (_ && _ && _).
Qed.

Lemma group_words_to_marker (ws after : list str) :
  forall parts cur,
    Forall not_marker ws ->
    (cur = [] -> match ws with w :: _ => isdigit w = false | [] => True end) ->
    group_words (ws ++ EMAIL :: after) parts cur
    = group_words after ((parts ++ one_part (cur ++ ws)) ++ [EMAIL]) [].
Proof.
  induction ws as [|w ws IH]; intros parts cur Hm Hd; cbn [group_words app].
  - change (eqb_str EMAIL EMAIL) with true. cbv iota. rewrite app_nil_r.
    destruct cur; cbn [nonempty one_part]; [|done]. by rewrite app_nil_r.
  - apply Forall_cons in Hm as [Hw Hm]. unfold not_marker in Hw. rewrite Hw.
    assert (isdigit w && (length cur =? 0) = false) as ->.
    { destruct cur; [|apply andb_false_r]. by rewrite (Hd eq_refl). }
    assert (G : group_words (ws ++ EMAIL :: after) parts (cur ++ [w])
                = group_words after
                    ((parts ++ one_part (cur ++ w :: ws)) ++ [EMAIL]) []).
    { rewrite IH; [|done|by destruct cur]. by rewrite <- (app_assoc cur [w] ws). }
    by destruct (_ && _ && _).
Qed.

Lemma group_words_of (serial : option str) (before after : list str) :
  match serial with Some sno => isdigit sno = true | None => True end ->
  plain_words before -> plain_words after ->
  group_words (words_of serial before after) [] []
  = serial_parts serial ++ one_part before ++ EMAIL :: one_part after.
Proof.
  intros Hs [Hb1 Hb2] [Ha1 Ha2]. unfold words_of.
  assert (G : forall parts,
            group_words (before ++ EMAIL :: after) parts []
            = parts ++ one_part before ++ EMAIL :: one_part after).
  { intros parts. rewrite group_words_to_marker by done.
    rewrite group_words_run by done. cbn [app].
    by rewrite <- !app_assoc. }
  destruct serial as [sno|]; cbn [serial_parts app]; [|apply (G [])].
  cbn [group_words]. rewrite (digits_not_marker sno Hs), Hs.
  cbn [length Nat.eqb andb]. apply (G [sno]).
Qed.

Lemma space_not_in_marker : " "%char ∉ EMAIL.
Proof.
  cbv [EMAIL list_ascii_of_string]. intros H.
  repeat (apply elem_of_cons in H as [H|H]; [discriminate H|]).
  by apply elem_of_nil in H.
Qed.

Lemma one_part_not_marker (ws : list str) :
  Forall not_marker ws -> Forall not_marker (one_part ws).
Proof.
  intros H. destruct ws as [|w1 [|w2 ws]]; cbn [one_part join]; [done|done|].
  constructor; [|done]. unfold not_marker.
  destruct (eqb_str _ EMAIL) eqn:E; [|done]. apply eqb_str_true in E.
  exfalso. apply space_not_in_marker. rewrite <- E.
  apply elem_of_app. right. by left.
Qed.

Lemma one_part_not_digits (ws : list str) :
  match ws with w :: _ => isdigit w = false | [] => True end ->
  match one_part ws with p :: _ => isdigit p = false | [] => True end.
Proof.
  destruct ws as [|w1 [|w2 ws]]; cbn [one_part join]; [done|done|].
  destruct w1 as [|c w1]; [done|]. cbn [isdigit app forallb]. intros H.
  apply andb_false_iff in H as [H|H]; [by rewrite H|].
  rewrite forallb_app, H. cbn [andb]. apply andb_false_r.
Qed.

(** X7.  Without a run of two spaces the words before the address end up in one
    part, whatever their number: the extractor then never reads both a name
    and a title off the line, one of the two is the default. *)
Theorem fallback_never_splits_name_and_title (serial : option str)
    (before after : list str) :
  match serial with Some sno => isdigit sno = true | None => True end ->
  plain_words before -> plain_words after ->
  let parts := group_words (words_of serial before after) [] [] in
  parts = serial_parts serial ++ one_part before ++ EMAIL :: one_part after /\
  fields_of_parts parts
  = (serial_text serial, (name_and_title (one_part before)).1,
     (name_and_title (one_part before)).2, company_of after) /\
  ((name_and_title (one_part before)).1 = HR_Manager \/
   (name_and_title (one_part before)).2 = HR_Representative).
Proof.
  intros Hs Hb Ha parts.
  assert (E : parts = serial_parts serial ++ one_part before
                      ++ EMAIL :: one_part after)
    by (by apply group_words_of).
  split; [done|]. split.
  - rewrite E, fields_of_parts_aligned.
    + by destruct after.
    + destruct serial; [done|]. apply one_part_not_digits, Hb.
    + apply one_part_not_marker, Hb.
  - destruct before as [|w ws]; cbn [one_part name_and_title]; [by left|].
    destruct (existsb _ _); cbn [fst snd]; tauto.
Qed.

Lemma fallback_never_splits_name_and_title_witness :
  let parts :=
    group_words
      (words_of (Some (txt "1"))
         [txt "John"; txt "Smith"; txt "Senior"; txt "Recruiter"]
         [txt "Acme"; txt "Corp"]) [] [] in
  parts = [txt "1"; txt "John Smith Senior Recruiter"; EMAIL; txt "Acme Corp"] /\
  fields_of_parts parts
  = (txt "1", HR_Manager, txt "John Smith Senior Recruiter", txt "Acme Corp") /\
  (HR_Manager = HR_Manager \/
   txt "John Smith Senior Recruiter" = HR_Representative).
Proof.
  apply (fallback_never_splits_name_and_title (Some (txt "1"))
           [txt "John"; txt "Smith"; txt "Senior"; txt "Recruiter"]
           [txt "Acme"; txt "Corp"]).
  - reflexivity.
  - split; [repeat constructor|reflexivity].
  - split; [repeat constructor|reflexivity].
Defined.

End FallbackMore.

(** ** The sender: what a send does to the counter, the log and the trace *)

Section SendMore.
Import Py Sender Spec Trace.

Lemma recipients_app (e1 e2 : list event) :
  recipients (e1 ++ e2) = recipients e1 ++ recipients e2.
Proof. unfold recipients. apply omap_app. Qed.

(** One attempt: the limit and the log are not touched, the counter is the
    one of the day plus the message accepted, and the transport is asked
    for at most one message, to the address of the contact. *)
Lemma attempt_facts (cfg : config) (st : state) (w : world) (c : contact)
    (template : str) :
  let base :=
    if (last_sent_date st <? today_check w)%Z then 0%Z else sent_today st in
  let '(st', r, events) := attempt cfg st w c template in
  daily_limit st' = daily_limit st /\
  sent_log st' = sent_log st /\
  sent_today st' = (base + successes events)%Z /\
  successes events = (if r is Some _ then 1 else 0)%Z /\
  (recipients events = [] \/ recipients events = [email c]) /\
  (successes events = 1%Z -> recipients events = [email c]).
Proof.
  intros base. unfold attempt.
  set (st0 := if (last_sent_date st <? today_check w)%Z
              then set_counter st 0 (today_store w) else st).
  assert (H0 : daily_limit st0 = daily_limit st /\
               sent_log st0 = sent_log st /\ sent_today st0 = base).
  { unfold st0, base. by destruct (last_sent_date st <? today_check w)%Z. }
  destruct H0 as (L0 & G0 & C0). clearbody st0 base.
  destruct (connect_ok w); cbn [negb].
  2:{ unfold successes. cbn. repeat split; try done; try lia. by left. }
  destruct (personalize_email cfg template c) as [subject content].
  match goal with |- context [if ?b then _ else _] => destruct b end.
  2:{ unfold successes. cbn. repeat split; try done; try lia. by left. }
  destruct (sendmail_ok w); unfold successes; cbn;
    repeat split; try done; try lia; by right.
Qed.

Lemma filter_all {A} (P : A -> Prop) `{forall x, Decision (P x)}
    (l : list A) :
  (forall x, P x) -> filter P l = l.
Proof.
  intros HP. induction l as [|x l IH]; [done|].
  by rewrite filter_cons_True, IH.
Qed.

(** Logging a send takes the contacts with that address, and no other, off
    the list of unsent contacts. *)
Lemma unsent_after_log (log : log_file) (c : contact) (subject stamp : str)
    (contacts : list contact) :
  get_unsent_contacts (log_sent_email log c subject stamp) contacts
  = without_address c (get_unsent_contacts log contacts).
Proof.
  unfold without_address, log_sent_email.
  assert (G : forall l : list log_entry,
    get_unsent_contacts
      (Entries (l ++ [{| log_timestamp := stamp; log_email := email c;
                         log_company := get (company c) (txt "Unknown");
                         log_hr_name := get (hr_name c) (txt "Unknown");
                         log_subject := subject |}])) contacts
    = filter (fun x => email x <> email c)
        (filter (fun x => email x ∉ map log_email l) contacts)).
  { intros l. unfold get_unsent_contacts. rewrite filter_bool_decide.
    rewrite list_filter_filter. apply list_filter_iff. intros x.
    rewrite elem_of_list_to_set, map_app. cbn [map log_email].
    rewrite elem_of_app, list_elem_of_singleton. tauto. }
  destruct log as [| |l].
  - rewrite (G []). cbn [get_unsent_contacts map].
    f_equal. apply filter_all. intros x. apply not_elem_of_nil.
  - rewrite (G []). cbn [get_unsent_contacts map].
    f_equal. apply filter_all. intros x. apply not_elem_of_nil.
  - rewrite (G l). f_equal. unfold get_unsent_contacts.
    rewrite filter_bool_decide. apply list_filter_iff. intros x.
    by rewrite elem_of_list_to_set.
Qed.

End SendMore.

Section SendOutcomes.
Import Py Sender Spec Trace Outcome.

Lemma send_email_outcome (cfg : config) (st : state) (w : world)
    (c : contact) (template : str) :
  send_outcome st w c (Batch.send_email cfg st w c template).
Proof.
  unfold send_outcome, Batch.send_email, counter_in_range.
  destruct (daily_limit st <=? sent_today st)%Z eqn:Hlim.
  { split_and!; intros; split_and?; first [done|by left|lia]. }
  apply Z.leb_gt in Hlim.
  pose proof (attempt_facts cfg st w c template) as A. cbv zeta in A.
  destruct (attempt cfg st w c template) as [[st1 r] events].
  destruct A as (L & G & C & S & R & R1).
  assert (Hrange : (0 <= sent_today st <= daily_limit st)%Z ->
                   (0 <= sent_today st1 <= daily_limit st1)%Z).
  { intros H. rewrite C, L.
    destruct (last_sent_date st <? today_check w)%Z; destruct r; lia. }
  destruct r as [subject|].
  - specialize (R1 S). destruct (log_write_ok w); cbn.
    + split_and!; intros; split_and?;
        first [done|by right|by apply Hrange
              |right; exists subject; by rewrite G
              |exists subject; by rewrite G].
    + split_and!; intros; split_and?;
        first [done|by right|by left|by apply Hrange].
  - split_and!; intros; split_and?; first [done|by left|by apply Hrange].
Qed.

Lemma smart_delay_keeps (st : state) (now : datetime)
    (randint : Z -> Z -> Z) :
  let st' := (Continuous.calculate_smart_delay st now randint).1 in
  daily_limit st' = daily_limit st /\ sent_log st' = sent_log st /\
  (counter_in_range st -> counter_in_range st').
Proof.
  unfold Continuous.calculate_smart_delay, counter_in_range.
  set (st0 := if (last_sent_date st <? date now)%Z
              then set_counter st 0 (date now) else st).
  assert (H0 : daily_limit st0 = daily_limit st /\
               sent_log st0 = sent_log st /\
               ((0 <= sent_today st <= daily_limit st)%Z ->
                (0 <= sent_today st0 <= daily_limit st0)%Z)).
  { unfold st0. destruct (last_sent_date st <? date now)%Z; cbn;
      repeat split; try done; lia. }
  clearbody st0.
  destruct (daily_limit st0 <=? sent_today st0)%Z; [done|].
  destruct (0 <? daily_limit st0 - sent_today st0)%Z; [|done].
  by destruct (Qle_bool _ _).
Qed.

Lemma send_email_24x7_outcome (cfg : config) (st : state) (w : world)
    (c : contact) (template : str) :
  send_outcome st w c (Continuous.send_email cfg st w c template).
Proof.
  unfold send_outcome, Continuous.send_email, counter_in_range.
  destruct (daily_limit st <=? sent_today st)%Z eqn:Hlim.
  { split_and!; intros; split_and?; first [done|by left|lia]. }
  apply Z.leb_gt in Hlim.
  pose proof (attempt_facts cfg st w c template) as A. cbv zeta in A.
  destruct (attempt cfg st w c template) as [[st1 r] events].
  destruct A as (L & G & C & S & R & R1).
  assert (Hrange : (0 <= sent_today st <= daily_limit st)%Z ->
                   (0 <= sent_today st1 <= daily_limit st1)%Z).
  { intros H. rewrite C, L.
    destruct (last_sent_date st <? today_check w)%Z; destruct r; lia. }
  destruct r as [subject|].
  - specialize (R1 S). destruct (log_write_ok w).
    + pose proof (smart_delay_keeps
                    (set_log st1 (log_sent_email (sent_log st1) c subject
                                    (timestamp w)))
                    (now_delay w) (randint w)) as K. cbv zeta in K.
      destruct (Continuous.calculate_smart_delay _ _ _) as [st2 delay].
      cbn [fst] in K. destruct K as (K1 & K2 & K3).
      unfold counter_in_range in K3. cbn in K1, K2, K3.
      split_and!; intros; split_and?;
        first [done|congruence|by right
              |right; exists subject; by rewrite K2, G
              |exists subject; by rewrite K2, G
              |by apply K3, Hrange].
    + split_and!; intros; split_and?;
        first [done|by right|by left|by apply Hrange].
  - split_and!; intros; split_and?; first [done|by left|by apply Hrange].
Qed.



(** X11.  With [min_delay] above [max_delay] the first variant never reports a
    send as done: when the transport accepted the message and the log was
    written, the message is counted and logged, and [False] is returned. *)
Theorem empty_delay_range_reports_failure (cfg : config) (st : state)
    (w : world) (c : contact) (template : str) :
  (cfg_max_delay cfg < cfg_min_delay cfg)%Z ->
  let '(st', ok, events) := Batch.send_email cfg st w c template in
  ok = false /\
  (successes events = 1%Z -> log_write_ok w = true ->
   exists subject,
     sent_log st' = log_sent_email (sent_log st) c subject (timestamp w)).
Proof.
  intros Hd. apply Z.leb_gt in Hd. unfold Batch.send_email.
  destruct (daily_limit st <=? sent_today st)%Z.
  { split; [done|]. unfold successes. cbn. lia. }
  pose proof (attempt_facts cfg st w c template) as A. cbv zeta in A.
  destruct (attempt cfg st w c template) as [[st1 r] events].
  destruct A as (_ & G & _ & S & _).
  destruct r as [subject|].
  - destruct (log_write_ok w); [|done]. split; [done|].
    intros _ _. exists subject. cbn. by rewrite G.
  - split; [done|]. lia.
Qed.

Lemma empty_delay_range_reports_failure_witness :
  let cfg := {| cfg_email := Some (txt "me@gmail.com");
                cfg_candidate_name := None; cfg_phone_number := None;
                cfg_resume_path := Some (txt "resume.pdf");
                cfg_min_delay := 120; cfg_max_delay := 30 |} in
  let '(st', ok, events) :=
    Batch.send_email cfg fresh_state (fair_world 100) bob short_template in
  ok = false /\
  (successes events = 1%Z -> log_write_ok (fair_world 100) = true ->
   exists subject,
     sent_log st' = log_sent_email (sent_log fresh_state) bob subject
                      (timestamp (fair_world 100))).
Proof.
  apply (empty_delay_range_reports_failure
           {| cfg_email := Some (txt "me@gmail.com");
              cfg_candidate_name := None; cfg_phone_number := None;
              cfg_resume_path := Some (txt "resume.pdf");
              cfg_min_delay := 120; cfg_max_delay := 30 |}
           fresh_state (fair_world 100) bob short_template).
  reflexivity.
Defined.

End SendOutcomes.

(** ** The sender: the loops *)

Section LoopMore.
Import Py Sender Spec Trace Outcome Campaign.

Lemma get_unsent_contacts_members (log : list log_entry)
    (contacts_df : list contact) (c : contact) :
  c ∈ get_unsent_contacts (Entries log) contacts_df <->
  c ∈ contacts_df /\ email c ∉ map log_email log.
Proof.
  unfold get_unsent_contacts.
  rewrite filter_bool_decide, list_elem_of_filter, elem_of_list_to_set.
  tauto.
Qed.

Lemma batch_loop_trace (cfg : config) (template : str) (ws : nat -> world)
    (batch : list contact) :
  forall (i : nat) (st : state),
    let '(st', n, events) := Batch.batch_loop cfg template ws i st batch in
    daily_limit st' = daily_limit st /\
    sublist (recipients events) (map email batch) /\
    (0 <= n <= Z.of_nat (length (recipients events)))%Z /\
    (counter_in_range st -> counter_in_range st').
Proof.
  induction batch as [|c rest IH]; intros i st; cbn [Batch.batch_loop].
  { split_and!; try done; cbn; lia. }
  pose proof (send_email_outcome cfg st (ws i) c template) as O.
  unfold send_outcome in O.
  destruct (Batch.send_email cfg st (ws i) c template) as [[st1 ok] ev1].
  destruct O as (L1 & R1 & _ & K1 & C1).
  assert (N1 : (0 <= (if ok then 1 else 0)
                <= Z.of_nat (length (recipients ev1)))%Z).
  { destruct ok; [|lia]. destruct (K1 eq_refl) as [-> _]. cbn. lia. }
  assert (S1 : forall l, sublist l (map email rest) ->
                 sublist (recipients ev1 ++ l) (map email (c :: rest))).
  { intros l Hl. destruct R1 as [->| ->]; cbn.
    - by apply sublist_cons.
    - by apply sublist_skip. }
  destruct (daily_limit st1 <=? sent_today st1)%Z.
  { split_and!; try done; try lia.
    rewrite <- (app_nil_r (recipients ev1)). apply S1, sublist_nil_l. }
  specialize (IH (S i) st1).
  destruct (Batch.batch_loop cfg template ws (S i) st1 rest)
    as [[st2 n2] ev2].
  destruct IH as (L2 & R2 & N2 & C2).
  rewrite recipients_app, length_app.
  split_and!; try congruence; try lia; [by apply S1|tauto].
Qed.

Lemma head_sublist (n : Z) (rows : list contact) :
  sublist (Batch.head n rows) rows /\
  ((0 <= n)%Z -> length (Batch.head n rows) <= Z.to_nat n).
Proof.
  unfold Batch.head. split.
  - destruct (0 <=? n)%Z; apply sublist_take.
  - intros H. apply Z.leb_le in H. rewrite H, length_take. lia.
Qed.

Lemma run_batch_trace (cfg : config) (hr_contacts : option (list contact))
    (template_file : option str) (ws : nat -> world) (st : state)
    (batch_size : Z) :
  let '(st', n, events) :=
    Batch.run_batch cfg hr_contacts template_file ws st batch_size in
  daily_limit st' = daily_limit st /\
  (forall contacts_df, hr_contacts = Some contacts_df ->
     sublist (recipients events)
       (map email (Batch.head batch_size (unsent st contacts_df)))) /\
  (hr_contacts = None -> events = []) /\
  (0 <= n <= Z.of_nat (length (recipients events)))%Z /\
  (counter_in_range st -> counter_in_range st').
Proof.
  unfold Batch.run_batch. destruct hr_contacts as [contacts_df|].
  - pose proof (batch_loop_trace cfg
                  (load_email_template template_file).1 ws
                  (Batch.head batch_size
                     (get_unsent_contacts (sent_log st) contacts_df))
                  0 st) as B.
    destruct (Batch.batch_loop _ _ _ _ _ _) as [[st' n] events].
    destruct B as (L & R & N & C). split_and!; try done; try lia.
    by intros ? [= <-].
  - split_and!; try done; cbn; lia.
Qed.

(** X12.  [run_batch] hands the transport no message for an address that stands
    in the sent log it read: it writes only to unsent contacts, in the order
    of the contact file, each at most once per row. *)
Theorem run_batch_spares_logged_addresses (cfg : config)
    (contacts_df : list contact) (template_file : option str)
    (ws : nat -> world) (st : state) (batch_size : Z)
    (log : list log_entry) :
  sent_log st = Entries log ->
  let '(_, _, events) :=
    Batch.run_batch cfg (Some contacts_df) template_file ws st batch_size in
  sublist (recipients events) (map email (unsent st contacts_df)) /\
  Forall (fun to => to ∉ map log_email log) (recipients events).
Proof.
  intros Hlog.
  pose proof (run_batch_trace cfg (Some contacts_df) template_file ws st
                batch_size) as T.
  destruct (Batch.run_batch _ _ _ _ _ _) as [[st' n] events].
  destruct T as (_ & R & _). specialize (R contacts_df eq_refl).
  assert (S : sublist (recipients events) (map email (unsent st contacts_df))).
  { etrans; [exact R|]. apply fmap_sublist, head_sublist. }
  split; [done|]. apply Forall_forall. intros to Hto.
  eapply elem_of_sublist in Hto; [|exact S].
  apply list_elem_of_fmap in Hto as (c & -> & Hc).
  unfold unsent in Hc. rewrite Hlog in Hc.
  pose proof (get_unsent_contacts_members log contacts_df c) as M.
  by apply M in Hc as [_ Hc].
Qed.

Lemma run_batch_spares_logged_addresses_witness :
  let st := {| sent_today := 0; daily_limit := 2; last_sent_date := 100;
               sent_log := Entries [alice_logged] |} in
  let '(_, _, events) :=
    Batch.run_batch plain_config (Some [bob; carol]) (Some short_template)
      (fun _ => fair_world 100) st 50 in
  sublist (recipients events) (map email (unsent st [bob; carol])) /\
  Forall (fun to => to ∉ map log_email [alice_logged]) (recipients events).
Proof.
  apply (run_batch_spares_logged_addresses plain_config [bob; carol]
           (Some short_template) (fun _ => fair_world 100)
           {| sent_today := 0; daily_limit := 2; last_sent_date := 100;
              sent_log := Entries [alice_logged] |} 50 [alice_logged]).
  reflexivity.
Defined.

(** X13.  With a batch size that is not negative, [run_batch] asks the transport
    for at most that many messages, and reports no more sends than it asked
    for. *)
Theorem run_batch_within_batch_size (cfg : config)
    (hr_contacts : option (list contact)) (template_file : option str)
    (ws : nat -> world) (st : state) (batch_size : Z) :
  (0 <= batch_size)%Z ->
  let '(_, success_count, events) :=
    Batch.run_batch cfg hr_contacts template_file ws st batch_size in
  (Z.of_nat (length (recipients events)) <= batch_size)%Z /\
  (0 <= success_count <= Z.of_nat (length (recipients events)))%Z.
Proof.
  intros Hn.
  pose proof (run_batch_trace cfg hr_contacts template_file ws st
                batch_size) as T.
  destruct (Batch.run_batch _ _ _ _ _ _) as [[st' n] events].
  destruct T as (_ & R & E & N & _). split; [|done].
  destruct hr_contacts as [contacts_df|].
  - specialize (R contacts_df eq_refl). apply sublist_length in R.
    rewrite length_map in R.
    pose proof (proj2 (head_sublist batch_size (unsent st contacts_df)) Hn).
    lia.
  - rewrite (E eq_refl). cbn. lia.
Qed.

Lemma run_batch_within_batch_size_witness :
  let '(_, success_count, events) :=
    Batch.run_batch plain_config (Some [bob; carol]) (Some short_template)
      (fun _ => fair_world 100) fresh_state 1 in
  (Z.of_nat (length (recipients events)) <= 1)%Z /\
  (0 <= success_count <= Z.of_nat (length (recipients events)))%Z.
Proof.
  apply (run_batch_within_batch_size plain_config (Some [bob; carol])
           (Some short_template) (fun _ => fair_world 100) fresh_state 1).
  lia.
Defined.

Lemma continuous_turn_trace (cfg : config) (template : str)
    (contacts_df : list contact) (st : state) (w : world) :
  let '(st', t, events) :=
    Continuous.continuous_turn cfg template contacts_df st w in
  daily_limit st' = daily_limit st /\
  (counter_in_range st -> counter_in_range st') /\
  length (unsent st' contacts_df)
  + sends_done [t] <= length (unsent st contacts_df) /\
  (t = Continuous.Completed -> unsent st contacts_df = []).
Proof.
  unfold Continuous.continuous_turn, unsent.
  destruct (get_unsent_contacts (sent_log st) contacts_df)
    as [|c rest] eqn:U.
  { split_and!; try done; rewrite U; cbn; lia. }
  destruct (daily_limit st <=? sent_today st)%Z.
  { split_and!; try done; rewrite U; cbn; lia. }
  pose proof (send_email_24x7_outcome cfg st w c template) as O.
  unfold send_outcome in O.
  destruct (Continuous.send_email cfg st w c template) as [[st1 ok] ev].
  destruct O as (L & _ & G & K & C).
  split_and!; try done.
  assert (W : length (without_address c (c :: rest)) < length (c :: rest)).
  { unfold without_address. apply (length_filter_lt _ _ c); [by left|].
    intros H. by apply H. }
  destruct ok.
  - destruct (K eq_refl) as (_ & subject & ->).
    rewrite unsent_after_log, U. cbn in *. lia.
  - destruct G as [->|[subject ->]].
    + rewrite U. cbn. lia.
    + rewrite unsent_after_log, U. cbn in *. lia.
Qed.

Lemma sends_done_cons (t : Continuous.turn) (ts : list Continuous.turn) :
  sends_done (t :: ts) = sends_done [t] + sends_done ts.
Proof. unfold sends_done. cbn. by destruct t as [| |[]]. Qed.

Lemma continuous_loop_trace (cfg : config) (template : str)
    (contacts_df : list contact) (ws : nat -> world) (turns : nat) :
  forall (i : nat) (st : state),
    let '(st', ts, events) :=
      Continuous.continuous_loop cfg template contacts_df ws i turns st in
    daily_limit st' = daily_limit st /\
    (counter_in_range st -> counter_in_range st') /\
    length (unsent st' contacts_df) + sends_done ts
    <= length (unsent st contacts_df).
Proof.
  induction turns as [|turns IH]; intros i st;
    cbn [Continuous.continuous_loop].
  { split_and!; try done; cbn; lia. }
  pose proof (continuous_turn_trace cfg template contacts_df st (ws i)) as T.
  destruct (Continuous.continuous_turn cfg template contacts_df st (ws i))
    as [[st1 t] ev1].
  destruct T as (L1 & C1 & U1 & _).
  assert (Hstop : daily_limit st1 = daily_limit st /\
            (counter_in_range st -> counter_in_range st1) /\
            length (unsent st1 contacts_df) + sends_done [t]
            <= length (unsent st contacts_df)) by done.
  specialize (IH (S i) st1).
  destruct (Continuous.continuous_loop cfg template contacts_df ws (S i)
              turns st1) as [[st2 ts] ev2].
  destruct IH as (L2 & C2 & U2).
  assert (Hgo : daily_limit st2 = daily_limit st /\
            (counter_in_range st -> counter_in_range st2) /\
            length (unsent st2 contacts_df) + sends_done (t :: ts)
            <= length (unsent st contacts_df)).
  { split_and!; [congruence|tauto|].
    rewrite sends_done_cons. lia. }
  by destruct t as [| |[]].
Qed.


(** X15.  A counter that starts between zero and the limit stays there through a
    batch and through the continuous loop, whatever the clock, the
    transport and the disk do; the limit itself is never changed. *)
Theorem counter_stays_in_range (cfg : config)
    (hr_contacts : option (list contact)) (template_file : option str)
    (template : str) (contacts_df : list contact) (ws : nat -> world)
    (st : state) (batch_size : Z) (turns : nat) :
  counter_in_range st ->
  let st1 :=
    (Batch.run_batch cfg hr_contacts template_file ws st batch_size).1.1 in
  let st2 :=
    (Continuous.continuous_loop cfg template contacts_df ws 0 turns st).1.1 in
  counter_in_range st1 /\ daily_limit st1 = daily_limit st /\
  counter_in_range st2 /\ daily_limit st2 = daily_limit st.
Proof.
  intros H st1 st2.
  pose proof (run_batch_trace cfg hr_contacts template_file ws st
                batch_size) as B.
  pose proof (continuous_loop_trace cfg template contacts_df ws turns 0 st)
    as C.
  unfold st1, st2.
  destruct (Batch.run_batch _ _ _ _ _ _) as [[s1 n] e1].
  destruct (Continuous.continuous_loop _ _ _ _ _ _ _) as [[s2 ts] e2].
  cbn [fst]. destruct B as (L1 & _ & _ & _ & C1). destruct C as (L2 & C2 & _).
  tauto.
Qed.

Lemma counter_stays_in_range_witness :
  let st1 :=
    (Batch.run_batch plain_config (Some [bob; carol]) (Some short_template)
       (fun _ => fair_world 101) (yesterday 1) 50).1.1 in
  let st2 :=
    (Continuous.continuous_loop plain_config short_template [bob; carol]
       (fun _ => fair_world 101) 0 3 (yesterday 1)).1.1 in
  counter_in_range st1 /\ daily_limit st1 = daily_limit (yesterday 1) /\
  counter_in_range st2 /\ daily_limit st2 = daily_limit (yesterday 1).
Proof.
  apply (counter_stays_in_range plain_config (Some [bob; carol])
           (Some short_template) short_template [bob; carol]
           (fun _ => fair_world 101) (yesterday 1) 50 3).
  unfold counter_in_range. cbn. lia.
Defined.

End LoopMore.

(** ** Templates: what [personalize_email] makes of braces and placeholders *)

Section TemplateMore.
Import Py Sender Spec Templates.

Lemma format_aux_escaped (kwargs : list (str * str)) (s : str) :
  forall out,
    format_aux kwargs Literal [] out (escape_braces s)
    = Formatted (rev out ++ s).
Proof.
  induction s as [|c s IH]; intros out; cbn [escape_braces flat_map].
  - cbn. by rewrite app_nil_r.
  - fold (escape_braces s).
    destruct (eqb_chr c "{") eqn:E1; cbn [orb app].
    + apply eqb_chr_true in E1 as ->. cbn [format_aux step].
      change (eqb_chr "{" "{") with true. cbv iota.
      cbn [format_aux step]. change (eqb_chr "{" "{") with true. cbv iota.
      rewrite IH. cbn [rev]. by rewrite <- app_assoc.
    + destruct (eqb_chr c "}") eqn:E2; cbn [app].
      * apply eqb_chr_true in E2 as ->. cbn [format_aux step].
        change (eqb_chr "}" "{") with false.
        change (eqb_chr "}" "}") with true. cbv iota.
        cbn [format_aux step]. change (eqb_chr "}" "}") with true. cbv iota.
        rewrite IH. cbn [rev]. by rewrite <- app_assoc.
      * cbn [format_aux step]. rewrite E1, E2, IH. cbn [rev].
        by rewrite <- app_assoc.
Qed.

(** X17.  A template in which every brace is doubled and no placeholder stands is
    sent as the text it stands for, whatever the contact. *)
Theorem doubled_braces_are_literal (cfg : config) (c : contact) (s : str) :
  snd (personalize_email cfg (escape_braces s) c) = Formatted s.
Proof.
  unfold personalize_email. cbn [snd]. unfold format.
  by rewrite format_aux_escaped.
Qed.

Lemma end_field_out (kwargs : list (str * str)) (name : str) (plain : bool)
    (out base : str) :
  end_field kwargs name plain (out ++ base)
  = match end_field kwargs name plain out with
    | Go m f o => Go m f (o ++ base)
    | Stop r => Stop r
    end.
Proof.
  unfold end_field. destruct (render_field kwargs name plain); try done.
  by rewrite app_assoc.
Qed.

Lemma step_out (kwargs : list (str * str)) (mode : fmt_mode)
    (field out base : str) (c : ascii) :
  step kwargs mode field (out ++ base) c
  = match step kwargs mode field out c with
    | Go m f o => Go m f (o ++ base)
    | Stop r => Stop r
    end.
Proof.
  assert (N : forall name,
            name_step kwargs name (out ++ base) c
            = match name_step kwargs name out c with
              | Go m f o => Go m f (o ++ base)
              | Stop r => Stop r
              end).
  { intros name. unfold name_step.
    repeat (destruct (eqb_chr c _); [done || apply end_field_out|]). done. }
  destruct mode as [| | |name [|]| | |depth]; cbn [step].
  - by repeat (destruct (eqb_chr c _); [done|]).
  - destruct (eqb_chr c _); [done|]. apply N.
  - by destruct (eqb_chr c _).
  - done.
  - apply N.
  - done.
  - repeat (destruct (eqb_chr c _); [done || apply end_field_out|]). done.
  - destruct (eqb_chr c _); [done|]. destruct (eqb_chr c _); [|done].
    destruct depth as [|[|depth]]; try done. apply end_field_out.
Qed.

(** The scanner stops on an exception or on a field it cannot render,
    never with a text. *)
Lemma step_stop (kwargs : list (str * str)) (mode : fmt_mode)
    (field out : str) (c : ascii) (r : fmt_result) :
  step kwargs mode field out c = Stop r -> forall p, prepend p r = r.
Proof.
  assert (F : forall name plain o,
            end_field kwargs name plain o = Stop r ->
            forall p, prepend p r = r).
  { intros name plain o. unfold end_field.
    destruct (render_field kwargs name plain); [done| |];
      by intros [= <-]. }
  assert (N : forall name,
            name_step kwargs name out c = Stop r ->
            forall p, prepend p r = r).
  { intros name. unfold name_step.
    destruct (eqb_chr c "{"); [by intros [= <-]|].
    destruct (eqb_chr c "["); [done|].
    destruct (eqb_chr c "}"); [apply F|].
    destruct (eqb_chr c ":"); [done|]. by destruct (eqb_chr c "!"). }
  destruct mode as [| | |name [|]| | |depth]; cbn [step].
  - by repeat (destruct (eqb_chr c _); [done|]).
  - destruct (eqb_chr c _); [done|]. apply N.
  - destruct (eqb_chr c _); [done|]. by intros [= <-].
  - done.
  - apply N.
  - done.
  - destruct (eqb_chr c "}"); [apply F|].
    destruct (eqb_chr c ":"); [done|]. by intros [= <-].
  - destruct (eqb_chr c "{"); [done|]. destruct (eqb_chr c "}"); [|done].
    destruct depth as [|[|depth]]; try done. apply F.
Qed.

(** What was written before the scanner reached a point stays in front of
    whatever the rest of the template gives. *)
Lemma format_aux_out (kwargs : list (str * str)) (s : str) :
  forall mode field out base,
    format_aux kwargs mode field (out ++ base) s
    = prepend (rev base) (format_aux kwargs mode field out s).
Proof.
  induction s as [|c s IH]; intros mode field out base; cbn [format_aux].
  - destruct mode; try done. cbn [prepend]. by rewrite rev_app_distr.
  - rewrite step_out.
    destruct (step kwargs mode field out c) as [m f o|r] eqn:E; [apply IH|].
    symmetry. by eapply step_stop.
Qed.

(** X18.  A recognized placeholder after literal text is replaced by its value,
    and the rest of the template is treated as a template of its own. *)
Theorem placeholder_is_substituted (cfg : config) (c : contact)
    (before name value after : str) :
  forallb literal_chr before = true ->
  (name, value) ∈ placeholder_values cfg c ->
  snd (personalize_email cfg (with_placeholder before name after) c)
  = prepend (before ++ value) (snd (personalize_email cfg after c)).
Proof.
  intros Hb Hin. unfold personalize_email. cbn [snd].
  fold (placeholder_values cfg c).
  assert (P : plain_name name = true /\
              render_field (placeholder_values cfg c) name true
              = Formatted value).
  { unfold placeholder_values in *.
    repeat (apply elem_of_cons in Hin as [[= -> ->]|Hin]; [by split|]).
    by apply elem_of_nil in Hin. }
  destruct P as [Hp Hr]. unfold plain_name in Hp.
  apply andb_true_iff in Hp as [Hp _]. apply andb_true_iff in Hp as [_ Hc].
  unfold format, with_placeholder. rewrite (format_aux_literal _ _ _ Hb).
  destruct name as [|n name]; [cbn in Hr; discriminate Hr|].
  cbn [format_aux step app]. change (eqb_chr "{" "{") with true. cbv iota.
  cbn [forallb] in Hc. apply andb_true_iff in Hc as [Hn Hc].
  cbn [format_aux step].
  assert (eqb_chr n "{" = false) as ->.
  { unfold name_chr in Hn. cbn [existsb list_ascii_of_string] in Hn.
    apply negb_true_iff in Hn. by apply orb_false_iff in Hn as [? _]. }
  rewrite (name_step_plain _ _ _ _ Hn), (format_aux_name _ _ _ Hc).
  unfold end_field. cbn [rev app]. rewrite Hr.
  rewrite <- (app_nil_l (rev value ++ rev before ++ [])), format_aux_out.
  f_equal. rewrite app_nil_r, rev_app_distr, !rev_involutive. done.
Qed.

Lemma placeholder_is_substituted_witness :
  snd (personalize_email plain_config
         (with_placeholder (txt "Dear ") (txt "hr_name") (txt ", hello")) bob)
  = prepend (txt "Dear " ++ txt "Bob")
      (snd (personalize_email plain_config (txt ", hello") bob)).
Proof.
  apply (placeholder_is_substituted plain_config bob (txt "Dear ")
           (txt "hr_name") (txt "Bob") (txt ", hello")).
  - reflexivity.
  - right. left.
Defined.

End TemplateMore.

(** ** The adaptive delay: where the band closes *)

Section DelayMore.
Import Py Sender Spec Delay.
Local Open Scope Q_scope.

(** X19.  When the target leaves less than nothing between the floor and the
    ceiling (more than 400 seconds per message left, or at most 24), the
    delay is drawn between 30 and 120 seconds, not near the target. *)
Theorem smart_delay_falls_back (st : state) (now : datetime)
    (randint : Z -> Z -> Z) :
  within_bounds randint ->
  let st1 := after_reset st now in
  (sent_today st1 < daily_limit st1)%Z ->
  400 <= Spec.target st1 now \/ Spec.target st1 now <= 24 ->
  Continuous.calculate_smart_delay st now randint
  = (st1, randint 30%Z 120%Z) /\
  (30 <= randint 30%Z 120%Z <= 120)%Z.
Proof.
  intros Hrand st1 Hlim Ht. split; [|apply Hrand; lia].
  unfold Continuous.calculate_smart_delay. fold (after_reset st now).
  fold st1. apply Z.leb_gt in Hlim. rewrite Hlim. apply Z.leb_gt in Hlim.
  assert ((0 <? daily_limit st1 - sent_today st1)%Z = true) as ->
    by (apply Z.ltb_lt; lia).
  fold (Spec.target st1 now). set (t := Spec.target st1 now) in *.
  destruct (py_max_bounds 30 (t * 0.75)) as (M1 & M2 & _).
  destruct (py_min_bounds 300 (t * 1.25)) as (N1 & N2 & _).
  assert (Qle_bool (py_min 300 (t * 1.25)) (py_max 30 (t * 0.75)) = true)
    as ->.
  { apply Qle_bool_iff. destruct Ht; lra. }
  done.
Qed.

Lemma smart_delay_falls_back_witness :
  let st := {| sent_today := 0; daily_limit := 100; last_sent_date := 100;
               sent_log := Absent |} in
  Continuous.calculate_smart_delay st (DateTime 100 0) lowest
  = (after_reset st (DateTime 100 0), lowest 30%Z 120%Z) /\
  (30 <= lowest 30%Z 120%Z <= 120)%Z.
Proof.
  apply (smart_delay_falls_back
           {| sent_today := 0; daily_limit := 100; last_sent_date := 100;
              sent_log := Absent |} (DateTime 100 0) lowest).
  - intros a b H. unfold lowest. lia.
  - reflexivity.
  - left. vm_compute. discriminate.
Defined.

End DelayMore.

(** ** The connection: retries and waits *)

Section TransportMore.
Import Transport.

Lemma open_connection_facts (conn : connection) (a : answer) :
  let '(conn', ok) := open_connection conn a in
  (ok = true -> conn' = Connection (Server true) 0) /\
  (ok = false -> connection_attempts conn' = connection_attempts conn).
Proof.
  unfold open_connection. destruct (open_ok a); [|done].
  by destruct (login_ok a).
Qed.

(** Enough fuel for the retries that are left gives a result: at most two
    waits, of 120 and then 240 seconds, in either variant. *)
Lemma connect_smtp_from_bounded (fresh : bool) (answers : nat -> answer) :
  forall fuel i conn,
    max_connection_attempts <= fuel + connection_attempts conn ->
    1 <= fuel ->
    exists conn' ok waits,
      connect_smtp_from fresh fuel answers i conn = Some (conn', ok, waits) /\
      length waits <= max_connection_attempts - 1 - connection_attempts conn /\
      Forall (fun w => w = 120%Z \/ w = 240%Z) waits /\
      (ok = false -> max_connection_attempts <= connection_attempts conn').
Proof.
  induction fuel as [|fuel IH]; intros i conn Hf H1; [lia|].
  cbn [connect_smtp_from].
  destruct (match smtp_server conn with
            | NoServer => false
            | Server _ => negb fresh && noop_ok (answers i)
            end).
  { eexists _, _, _. split; [done|]. split_and!; try done; cbn; lia. }
  pose proof (open_connection_facts
                (Connection NoServer (connection_attempts conn))
                (answers i)) as O.
  destruct (open_connection _ (answers i)) as [conn1 ok1].
  destruct O as [O1 O2]. destruct ok1.
  { eexists _, _, _. split; [done|]. split_and!; try done; cbn; lia. }
  specialize (O2 eq_refl). cbn in O2. rewrite O2.
  destruct (S (connection_attempts conn) <? max_connection_attempts)
    eqn:Hlt.
  - apply Nat.ltb_lt in Hlt. unfold max_connection_attempts in *.
    destruct (IH (S i) (Connection (smtp_server conn1)
                          (S (connection_attempts conn))))
      as (conn' & ok & waits & -> & Hl & Hw & Hk); [cbn; lia|lia|].
    eexists _, _, _. split; [done|]. cbn in Hl.
    split_and!; try done; [cbn; lia|].
    constructor; [|done].
    assert (connection_attempts conn = 0 \/ connection_attempts conn = 1)
      as [-> | ->] by lia; destruct fresh; cbn; tauto.
  - apply Nat.ltb_ge in Hlt.
    eexists _, _, _. split; [done|]. split_and!; try done; cbn; lia.
Qed.

(** X20.  A call of [connect_smtp] ends, in either variant, after at most three
    runs of the body: it waits at most twice, 120 and then 240 seconds (the
    cap of 300 seconds of the second variant is never reached), and a
    [False] leaves the counter at the maximum or above. *)
Theorem connect_smtp_gives_up_after_three (answers : nat -> answer)
    (conn : connection) :
  exists conn1 ok1 waits1 conn2 ok2 waits2,
    connect_smtp answers conn = Some (conn1, ok1, waits1) /\
    connect_smtp_24x7 answers conn = Some (conn2, ok2, waits2) /\
    length waits1 <= 2 /\ length waits2 <= 2 /\
    Forall (fun w => w = 120%Z \/ w = 240%Z) (waits1 ++ waits2) /\
    (ok1 = false -> 3 <= connection_attempts conn1) /\
    (ok2 = false -> 3 <= connection_attempts conn2).
Proof.
  destruct (connect_smtp_from_bounded false answers 3 0 conn)
    as (c1 & o1 & w1 & E1 & L1 & F1 & K1);
    [unfold max_connection_attempts; lia|lia|].
  destruct (connect_smtp_from_bounded true answers 3 0 conn)
    as (c2 & o2 & w2 & E2 & L2 & F2 & K2);
    [unfold max_connection_attempts; lia|lia|].
  exists c1, o1, w1, c2, o2, w2. unfold max_connection_attempts in *.
  split_and!; try done; try lia. by apply Forall_app.
Qed.

(** X21.  The counter is reset by a success only: once it stands at two or more,
    a call whose first run fails returns [False] at once, without a wait
    and without a second run. *)
Theorem exhausted_counter_allows_one_try (fresh : bool)
    (answers : nat -> answer) (conn : connection) :
  2 <= connection_attempts conn ->
  smtp_server conn = NoServer ->
  open_ok (answers 0) = false ->
  connect_smtp_from fresh max_connection_attempts answers 0 conn
  = Some (Connection NoServer (S (connection_attempts conn)), false, []).
Proof.
  intros H2 Hs Ho. unfold max_connection_attempts.
  cbn [connect_smtp_from]. rewrite Hs. unfold open_connection. rewrite Ho.
  cbn [connection_attempts smtp_server].
  assert ((S (connection_attempts conn) <? max_connection_attempts) = false)
    as -> by (apply Nat.ltb_ge; unfold max_connection_attempts; lia).
  done.
Qed.

Lemma exhausted_counter_allows_one_try_witness :
  connect_smtp_from false max_connection_attempts
    (fun _ => Answer false false false) 0 (Connection NoServer 3)
  = Some (Connection NoServer 4, false, []).
Proof.
  apply (exhausted_counter_allows_one_try false
           (fun _ => Answer false false false) (Connection NoServer 3)).
  - cbn. lia.
  - reflexivity.
  - reflexivity.
Defined.

(** X22.  In the first variant a login that fails leaves the opened connection in
    [smtp_server]; when the retry finds that it answers [noop], the call
    returns [True] with a connection that never logged in. *)
Theorem failed_login_passes_for_a_connection (answers : nat -> answer)
    (conn : connection) :
  connection_attempts conn <= 1 ->
  smtp_server conn = NoServer ->
  open_ok (answers 0) = true ->
  login_ok (answers 0) = false ->
  noop_ok (answers 1) = true ->
  connect_smtp answers conn
  = Some (Connection (Server false) (S (connection_attempts conn)), true,
          [backoff None (S (connection_attempts conn))]).
Proof.
  intros Ha Hs Ho Hl Hn. unfold connect_smtp, max_connection_attempts.
  cbn [connect_smtp_from]. rewrite Hs. unfold open_connection.
  rewrite Ho, Hl. cbn [connection_attempts smtp_server].
  assert ((S (connection_attempts conn) <? max_connection_attempts) = true)
    as -> by (apply Nat.ltb_lt; unfold max_connection_attempts; lia).
  cbn [negb andb]. by rewrite Hn.
Qed.

Lemma failed_login_passes_for_a_connection_witness :
  connect_smtp (fun _ => Answer true true false) (Connection NoServer 0)
  = Some (Connection (Server false) 1, true, [backoff None 1]).
Proof.
  apply (failed_login_passes_for_a_connection
           (fun _ => Answer true true false) (Connection NoServer 0));
    first [reflexivity|cbn; lia].
Defined.

Lemma connect_24x7_logged_in (answers : nat -> answer) :
  forall fuel i conn conn' waits,
    connect_smtp_from true fuel answers i conn = Some (conn', true, waits) ->
    conn' = Connection (Server true) 0.
Proof.
  induction fuel as [|fuel IH]; intros i conn conn' waits; [done|].
  cbn [connect_smtp_from].
  assert ((match smtp_server conn with
           | NoServer => false
           | Server _ => negb true && noop_ok (answers i)
           end) = false) as -> by (by destruct (smtp_server conn)).
  pose proof (open_connection_facts
                (Connection NoServer (connection_attempts conn))
                (answers i)) as O.
  destruct (open_connection _ (answers i)) as [conn1 ok1].
  destruct O as [O1 _]. destruct ok1.
  { intros [= <- <-]. by apply O1. }
  destruct (_ <? _); [|done].
  destruct (connect_smtp_from true fuel answers (S i) _)
    as [[[c o] ws]|] eqn:E; [|done].
  intros [= <- -> <-]. by eapply IH.
Qed.

(** X23.  In the second variant a [True] always stands for a connection opened
    and logged in by this call, with the counter back at zero. *)
Theorem connect_24x7_true_means_logged_in (answers : nat -> answer)
    (conn conn' : connection) (waits : list Z) :
  connect_smtp_24x7 answers conn = Some (conn', true, waits) ->
  conn' = Connection (Server true) 0.
Proof. apply connect_24x7_logged_in. Qed.

Lemma connect_24x7_true_means_logged_in_witness :
  connect_smtp_24x7 (fun _ => Answer true true true)
    (Connection (Server false) 1)
  = Some (Connection (Server true) 0, true, []) /\
  Connection (Server true) 0 = Connection (Server true) 0.
Proof.
  split; [reflexivity|].
  apply (connect_24x7_true_means_logged_in
           (fun _ => Answer true true true) (Connection (Server false) 1)
           (Connection (Server true) 0) []).
  reflexivity.
Defined.

End TransportMore.

(** ** The extractor: lines with columns *)

Section TabularMore.
Import Py Re Extractor Spec More Tabular.

(** Where a column goes on, [\s{2,}] does not match. *)
Lemma no_gap_no_match (prev : option ascii) (x : ascii) (rest : str) :
  isspace x = false \/
  match rest with y :: _ => isspace y = false | [] => True end ->
  match_here [Rep isspace 2] prev (x :: rest) = None.
Proof.
  intros H. cbn [match_here rep]. destruct (isspace x) eqn:Ex; [|done].
  destruct H as [H|H]; [done|]. destruct rest as [|y rest]; [done|].
  cbn [rep]. by rewrite H.
Qed.

(** Two spaces before a column are matched whole. *)
Lemma gap_match (prev : option ascii) (x : ascii) (rest : str) :
  isspace x = false ->
  match_here [Rep isspace 2] prev (" "%char :: " "%char :: x :: rest)
  = Some [" "%char; " "%char].
Proof.
  intros H. cbn [match_here rep].
  change (isspace " ") with true. cbv iota. by rewrite H.
Qed.

Lemma split_aux_none (p : list re_item) (prev : option ascii)
    (cur : str) (c : ascii) (s : str) :
  match_here p prev (c :: s) = None ->
  split_aux p prev 0 cur (c :: s) = split_aux p (Some c) 0 (c :: cur) s.
Proof. intros H. change (split_aux p prev 0 cur (c :: s)) with
  (match match_here p prev (c :: s) with
   | Some ((_ :: _) as m) =>
       rev cur :: split_aux p (Some c) (length m - 1) [] s
   | _ => split_aux p (Some c) 0 (c :: cur) s
   end). by rewrite H.
Qed.

Lemma split_aux_gap (prev : option ascii) (cur : str) (x : ascii)
    (rest : str) :
  isspace x = false ->
  split_aux [Rep isspace 2] prev 0 cur (two_spaces ++ x :: rest)
  = rev cur :: split_aux [Rep isspace 2] (Some " "%char) 0 [] (x :: rest).
Proof.
  intros H. cbn [two_spaces list_ascii_of_string app].
  change (split_aux [Rep isspace 2] prev 0 cur
            (" "%char :: " "%char :: x :: rest)) with
  (match match_here [Rep isspace 2] prev (" "%char :: " "%char :: x :: rest)
   with
   | Some ((_ :: _) as m) =>
       rev cur :: split_aux [Rep isspace 2] (Some " "%char) (length m - 1) []
                    (" "%char :: x :: rest)
   | _ => split_aux [Rep isspace 2] (Some " "%char) 0 (" "%char :: cur)
            (" "%char :: x :: rest)
   end).
  by rewrite (gap_match prev x rest H).
Qed.

Lemma split_aux_column (c : str) :
  column_chars c ->
  forall prev cur,
    (split_aux [Rep isspace 2] prev 0 cur c = [rev cur ++ c]) /\
    (forall x rest, isspace x = false ->
       split_aux [Rep isspace 2] prev 0 cur (c ++ two_spaces ++ x :: rest)
       = (rev cur ++ c)
         :: split_aux [Rep isspace 2] (Some " "%char) 0 [] (x :: rest)).
Proof.
  induction 1 as [x Hx|x y r Hxy _ IH]; intros prev cur.
  - split.
    + rewrite split_aux_none by (apply no_gap_no_match; by left). done.
    + intros z rest Hz. cbn [app].
      rewrite split_aux_none by (apply no_gap_no_match; by left).
      by rewrite split_aux_gap.
  - destruct (IH (Some x) (x :: cur)) as [IH1 IH2]. split.
    + rewrite split_aux_none by (apply no_gap_no_match; tauto).
      rewrite IH1. cbn [rev]. by rewrite <- app_assoc.
    + intros z rest Hz. specialize (IH2 z rest Hz).
      change ((x :: y :: r) ++ two_spaces ++ z :: rest)
        with (x :: (y :: r) ++ two_spaces ++ z :: rest).
      rewrite split_aux_none by (apply no_gap_no_match; tauto).
      rewrite IH2. cbn [rev]. by rewrite <- app_assoc.
Qed.

Lemma join_more (sep a b : str) (r : list str) :
  join sep (a :: b :: r) = a ++ sep ++ join sep (b :: r).
Proof. reflexivity. Qed.

Lemma split_aux_columns (cols : list str) :
  Forall column cols -> cols <> [] ->
  forall prev,
    split_aux [Rep isspace 2] prev 0 [] (join two_spaces cols) = cols.
Proof.
  induction 1 as [|c cols [Hc Hf] Hcols IH]; intros Hne prev; [done|].
  destruct cols as [|c2 cols].
  - cbn [join]. by rewrite (proj1 (split_aux_column c Hc prev [])).
  - rewrite join_more.
    apply Forall_cons in Hcols as H2. destruct H2 as [[Hc2 Hf2] _].
    assert (J : exists x rest, join two_spaces (c2 :: cols) = x :: rest /\
                               isspace x = false).
    { destruct c2 as [|x r]; [done|]. destruct cols as [|c3 cols].
      - by exists x, r.
      - rewrite join_more. by exists x, (r ++ two_spaces ++ join two_spaces (c3 :: cols)). }
    destruct J as (x & rest & J & Hx). rewrite J.
    rewrite (proj2 (split_aux_column c Hc prev []) x rest Hx).
    rewrite <- J, IH by done. done.
Qed.

Lemma column_strip (c : str) : column c -> strip c = c /\ c <> [].
Proof.
  intros [Hc Hf]. split; [|by destruct c].
  assert (L : lstrip c = c).
  { destruct c as [|x r]; [done|]. cbn. by rewrite Hf. }
  assert (R : match rev c with z :: _ => isspace z = false | [] => False end).
  { clear Hf L. induction Hc as [x Hx|x y r _ _ IH]; [done|].
    cbn [rev] in *. by destruct (rev r ++ [y]). }
  unfold strip, rstrip. rewrite L.
  destruct (rev c) as [|z t] eqn:E; [done|]. cbn. rewrite R, <- E.
  apply rev_involutive.
Qed.

(** A text made of two or more columns with two spaces between them is
    split into these columns, none lost, none merged. *)
Lemma split_parts_columns (c1 c2 : str) (cols : list str) :
  Forall column (c1 :: c2 :: cols) ->
  split_parts (join two_spaces (c1 :: c2 :: cols)) = c1 :: c2 :: cols.
Proof.
  intros H. unfold split_parts.
  assert (contains (join two_spaces (c1 :: c2 :: cols)) (txt "  ") = true)
    as ->.
  { rewrite join_more. apply (contains_middle c1 two_spaces). }
  unfold Re.split. rewrite split_aux_columns by done.
  induction H as [|c l Hc _ IH]; [done|]. cbn [map List.filter].
  destruct (column_strip c Hc) as [-> Hne]. rewrite IH.
  by destruct c.
Qed.

(** X8.  Columns in, fields out: when the parts of a line (a serial number or
    none, the columns before the address, the marker, the columns after it)
    are separated by two spaces, the fields are read off these columns. *)
Theorem columns_become_fields (serial : option str)
    (before after : list str) :
  match serial with
  | Some sno => isdigit sno = true
  | None => match before with p :: _ => isdigit p = false | [] => True end
  end ->
  Forall not_marker before ->
  Forall column (serial_parts serial ++ before ++ EMAIL :: after) ->
  2 <= length (serial_parts serial ++ before ++ EMAIL :: after) ->
  let line_parts :=
    join two_spaces (serial_parts serial ++ before ++ EMAIL :: after) in
  split_parts line_parts = serial_parts serial ++ before ++ EMAIL :: after /\
  fields_of_parts (split_parts line_parts)
  = (serial_text serial, (name_and_title before).1,
     (name_and_title before).2, company_of after).
Proof.
  intros Hs Hb Hc Hl line_parts.
  assert (E : split_parts line_parts
              = serial_parts serial ++ before ++ EMAIL :: after).
  { unfold line_parts.
    destruct (serial_parts serial ++ before ++ EMAIL :: after)
      as [|c1 [|c2 cols]]; cbn in Hl; try lia.
    by apply split_parts_columns. }
  split; [done|]. rewrite E. by apply fields_of_parts_aligned.
Qed.

Ltac column_proof :=
  split; [|reflexivity];
  repeat first
    [ apply column_end; reflexivity
    | apply column_more; [first [left; reflexivity|right; reflexivity]|] ].

Lemma columns_become_fields_witness :
  let line_parts :=
    join two_spaces
      (serial_parts (Some (txt "7")) ++
       [txt "Jane Doe"; txt "HR Head"] ++ EMAIL :: [txt "Foo Ltd"]) in
  split_parts line_parts
  = [txt "7"; txt "Jane Doe"; txt "HR Head"; EMAIL; txt "Foo Ltd"] /\
  fields_of_parts (split_parts line_parts)
  = (txt "7", txt "Jane Doe", txt "HR Head", txt "Foo Ltd").
Proof.
  apply (columns_become_fields (Some (txt "7"))
           [txt "Jane Doe"; txt "HR Head"] [txt "Foo Ltd"]).
  - reflexivity.
  - repeat constructor.
  - cbv [serial_parts app EMAIL list_ascii_of_string].
    repeat (apply Forall_cons; split; [column_proof|]). constructor.
  - cbn. lia.
Defined.

End TabularMore.

(** ** The extractor: a line that is nothing but an address *)

Section AddressMore.
Import Py Re Extractor Spec Address.

(** A repetition that meets a character outside its class, or the end,
    stops there when what follows matches. *)
Lemma rep_to_stop (cls : ascii -> bool) (lo : nat)
    (k : option ascii -> str -> option str) (a rest m : str) :
  forallb cls a = true ->
  match rest with c :: _ => cls c = false | [] => True end ->
  (forall pv, k pv rest = Some m) ->
  forall n prev,
    lo <= n + length a ->
    rep cls lo k n prev (a ++ rest) = Some (a ++ m).
Proof.
  intros Ha Hrest Hk. induction a as [|c a IH]; intros n prev Hlo.
  - cbn [app length] in *. assert ((lo <=? n) = true) as E
      by (apply Nat.leb_le; lia).
    destruct rest as [|c rest]; cbn [rep]; rewrite E; [apply Hk|].
    rewrite Hrest. apply Hk.
  - cbn [forallb] in Ha. apply andb_true_iff in Ha as [Hc Ha].
    cbn [app rep]. rewrite Hc, (IH Ha); [done|]. cbn [length] in Hlo. lia.
Qed.

(** A repetition that runs to the end of the text fails when what follows
    matches at no point of the run. *)
Lemma rep_fails (cls : ascii -> bool) (lo : nat)
    (k : option ascii -> str -> option str) (b : str) :
  (forall b1 b2 pv, b = b1 ++ b2 -> k pv b2 = None) ->
  forall n prev, rep cls lo k n prev b = None.
Proof.
  induction b as [|c b IH]; intros Hk n prev; cbn [rep].
  - rewrite (Hk [] []); [|done]. by destruct (lo <=? n).
  - rewrite IH.
    + rewrite (Hk [] (c :: b)); [|done]. destruct (cls c); by destruct (lo <=? n).
    + intros b1 b2 pv ->. by apply (Hk (c :: b1) b2).
Qed.

(** A repetition falls back to the point where what follows matches, when
    it matches at no later point of the run. *)
Lemma rep_falls_back (cls : ascii -> bool) (lo : nat)
    (k : option ascii -> str -> option str) (a b m : str) :
  forallb cls a = true ->
  (forall b1 b2 pv, b = b1 ++ b2 -> b1 <> [] -> k pv b2 = None) ->
  (forall pv, k pv b = Some m) ->
  forall n prev,
    lo <= n + length a ->
    rep cls lo k n prev (a ++ b) = Some (a ++ m).
Proof.
  intros Ha Hlater Hk. induction a as [|c a IH]; intros n prev Hlo.
  - cbn [app length] in *. assert ((lo <=? n) = true) as E
      by (apply Nat.leb_le; lia).
    destruct b as [|c b]; cbn [rep]; rewrite E; [apply Hk|].
    rewrite rep_fails.
    + rewrite Hk. by destruct (cls c).
    + intros b1 b2 pv ->. by apply (Hlater (c :: b1) b2).
  - cbn [forallb] in Ha. apply andb_true_iff in Ha as [Hc Ha].
    cbn [app rep]. rewrite Hc, (IH Ha); [done|]. cbn [length] in Hlo. lia.
Qed.

Lemma letters_to_end (t : str) :
  forallb isalpha_ascii t = true ->
  forall n prev,
    match t with
    | [] => match prev with Some p => isword p = true | None => False end
    | _ => True
    end ->
    2 <= n + length t ->
    rep tld_chr 2 (match_here [Bnd]) n prev t = Some t.
Proof.
  induction t as [|c t IH]; intros Ht n prev Hp Hn; cbn [rep].
  - cbn [length] in Hn. assert ((2 <=? n) = true) as -> by (apply Nat.leb_le; lia).
    cbn [match_here]. unfold at_boundary. destruct prev as [p|]; [|done].
    by rewrite Hp.
  - cbn [forallb] in Ht. apply andb_true_iff in Ht as [Hc Ht].
    assert (tld_chr c = true) as -> by (unfold tld_chr; by rewrite Hc).
    rewrite IH; [done|done| |cbn [length] in Hn; lia].
    destruct t; [|done]. unfold isword, isalpha_chr. by rewrite Hc.
Qed.

Lemma letters_hold_no (sep : ascii) (t b1 b2 : str) :
  isalpha_ascii sep = false -> forallb isalpha_ascii t = true ->
  t = b1 ++ b2 ->
  match b2 with c :: _ => eqb_chr sep c = false | [] => True end.
Proof.
  intros Hsep Ht ->. rewrite forallb_app in Ht.
  apply andb_true_iff in Ht as [_ Ht]. destruct b2 as [|c b2]; [done|].
  cbn [forallb] in Ht. apply andb_true_iff in Ht as [Hc _].
  destruct (eqb_chr sep c) eqn:E; [|done].
  apply eqb_chr_true in E as <-. congruence.
Qed.

(** The pattern takes a simple address whole, wherever the text before it
    ends in no word character and the address runs to the end. *)
Lemma email_pattern_takes_address (l d t : str) :
  simple_address l d t ->
  match_here email_pattern None (address l d t) = Some (address l d t).
Proof.
  intros (Hw & Hl & Hd & Hdc & Ht & Ht2). unfold email_pattern, address.
  cbn [match_here].
  assert (B : at_boundary None (l ++ "@"%char :: d ++ "."%char :: t) = true).
  { unfold at_boundary. destruct l as [|c0 l0]; [done|]. cbn [app].
    by rewrite Hw. }
  rewrite B.
  assert (K3 : forall pv,
            match_here [One (eqb_chr "."); Rep tld_chr 2; Bnd] pv
              ("."%char :: t) = Some ("."%char :: t)).
  { intros pv. cbn [match_here]. change (eqb_chr "." ".") with true. cbv iota.
    rewrite letters_to_end; [done|done| |lia]. destruct t; [|done].
    cbn [length] in Ht2. lia. }
  assert (K2 : forall pv,
            match_here [One (eqb_chr "@"); Rep domain_chr 1;
                        One (eqb_chr "."); Rep tld_chr 2; Bnd] pv
              ("@"%char :: d ++ "."%char :: t)
            = Some ("@"%char :: d ++ "."%char :: t)).
  { intros pv. cbn [match_here]. change (eqb_chr "@" "@") with true. cbv iota.
    rewrite (rep_falls_back domain_chr 1 _ d ("."%char :: t) ("."%char :: t)).
    - done.
    - done.
    - intros b1 b2 pv' E Hb1. destruct b1 as [|x b1]; [done|].
      injection E as _ E.
      pose proof (letters_hold_no "." t b1 b2 eq_refl Ht E) as N.
      destruct b2 as [|y b2]; cbn [match_here]; [done|]. by rewrite N.
    - exact K3.
    - destruct d; [done|]. cbn [length]. lia. }
  rewrite (rep_to_stop local_chr 1 _ l
             ("@"%char :: d ++ "."%char :: t)
             ("@"%char :: d ++ "."%char :: t)).
  - done.
  - done.
  - done.
  - exact K2.
  - destruct l; [done|]. cbn [length]. lia.
Qed.

Lemma findall_aux_skipped (p : list re_item) (s : str) :
  forall prev skip, length s <= skip -> findall_aux p prev skip s = [].
Proof.
  induction s as [|c s IH]; intros prev skip H; [done|].
  cbn [length] in H. destruct skip as [|skip]; [lia|].
  cbn [findall_aux]. apply IH. lia.
Qed.

(** On a line that is nothing but a simple address the pattern finds this
    address and no other. *)
Lemma findall_address (l d t : str) :
  simple_address l d t ->
  findall email_pattern (address l d t) = [address l d t].
Proof.
  intros H. pose proof (email_pattern_takes_address l d t H) as M.
  unfold findall. destruct (address l d t) as [|c s] eqn:E.
  { unfold address in E. by destruct l. }
  cbn [findall_aux]. rewrite M. f_equal.
  apply findall_aux_skipped. cbn [length]. lia.
Qed.

Lemma replace_whole (s new : str) :
  s <> [] -> replace s s new = new.
Proof.
  intros H. unfold replace. destruct s as [|c s]; [done|].
  cbn [replace_aux].
  rewrite <- (app_nil_r (c :: s)) at 1. rewrite startswith_app.
  assert (R : forall k r, length r <= k ->
                replace_aux (c :: s) new k r = []).
  { intros k r. revert k. induction r as [|x r IH]; intros k Hk; [done|].
    cbn [length] in Hk. destruct k as [|k]; [lia|].
    cbn [replace_aux]. apply IH. lia. }
  rewrite R; [by rewrite app_nil_r|]. cbn [length]. lia.
Qed.

(** X9.  A data line that is nothing but a simple address gives a contact with
    this address, the default name and title, and a company named after
    the number of the line. *)
Theorem bare_address_gets_defaults (line_num : nat) (l d t : str) :
  simple_address l d t ->
  parse_line line_num (address l d t)
  = Some (inl (bare_contact line_num (address l d t))).
Proof.
  intros H. unfold parse_line. rewrite (findall_address l d t H).
  rewrite replace_whole by (unfold address; by destruct l).
  change (fields_of_parts (split_parts (strip EMAIL)))
    with ([] : str, HR_Manager, HR_Representative, Unknown_Company).
  cbv iota beta. unfold emit.
  assert (S : email_shape (address l d t)).
  { destruct H as (_ & Hl & _ & Hd & Ht & _). exists l, d, t.
    split_and!; try done. unfold tld_chr.
    apply forallb_forall. intros x Hx.
    rewrite forallb_forall in Ht. by rewrite (Ht x Hx). }
  destruct (email_shape_valid _ S) as (_ & _ & ->).
  done.
Qed.

Lemma bare_address_gets_defaults_witness :
  parse_line 3 (address (txt "careers") (txt "foo") (txt "io"))
  = Some (inl (bare_contact 3
                 (address (txt "careers") (txt "foo") (txt "io")))).
Proof.
  apply (bare_address_gets_defaults 3 (txt "careers") (txt "foo") (txt "io")).
  unfold simple_address. split_and!; first [reflexivity|done|cbn; lia].
Defined.

End AddressMore.

(** ** The sender: the schedule of the first variant *)

Section ScheduleMore.
Import Py Sender Spec Trace Outcome Campaign Schedule.

Lemma run_batch_sends_bounded (cfg : config)
    (hr_contacts : option (list contact)) (template_file : option str)
    (ws : nat -> world) (st : state) (batch_size : Z) :
  (0 <= batch_size)%Z ->
  length (recipients
            (Batch.run_batch cfg hr_contacts template_file ws st
               batch_size).2)
  <= Z.to_nat batch_size.
Proof.
  intros Hn.
  pose proof (run_batch_trace cfg hr_contacts template_file ws st
                batch_size) as T.
  destruct (Batch.run_batch _ _ _ _ _ _) as [[st' n] events].
  destruct T as (_ & R & E & _). cbn [snd].
  destruct hr_contacts as [contacts_df|].
  - specialize (R contacts_df eq_refl). apply sublist_length in R.
    rewrite length_map in R.
    pose proof (proj2 (head_sublist batch_size (unsent st contacts_df)) Hn).
    lia.
  - rewrite (E eq_refl). cbn. lia.
Qed.

Lemma run_jobs_bounded (cfg : config)
    (hr_contacts : nat -> option (list contact))
    (template_file : nat -> option str) (ws : nat -> nat -> world)
    (batch_sizes : list Z) :
  Forall (fun n => (0 <= n)%Z) batch_sizes ->
  forall j st,
    length (recipients
              (run_jobs cfg hr_contacts template_file ws j st batch_sizes).2)
    <= Z.to_nat (foldr Z.add 0%Z batch_sizes).
Proof.
  induction 1 as [|n rest Hn Hrest IH]; intros j st; cbn [run_jobs foldr].
  { cbn. lia. }
  pose proof (run_batch_sends_bounded cfg (hr_contacts j) (template_file j)
                (ws j) st n Hn) as B.
  destruct (Batch.run_batch _ _ _ _ _ _) as [[st1 k] ev1]. cbn [snd] in B.
  specialize (IH (S j) st1).
  destruct (run_jobs _ _ _ _ _ _ _) as [st2 ev2]. cbn [snd] in *.
  rewrite recipients_app, length_app.
  assert (0 <= foldr Z.add 0 rest)%Z.
  { clear -Hrest. induction Hrest; cbn; lia. }
  lia.
Qed.

(** X16.  The four batches that the continuous mode of the first variant
    schedules for a day ask the transport for at most eighty messages
    together, whatever [daily_limit] says. *)
Theorem four_scheduled_batches_send_at_most_eighty (cfg : config)
    (hr_contacts : nat -> option (list contact))
    (template_file : nat -> option str) (ws : nat -> nat -> world)
    (st : state) :
  length (recipients (run_day cfg hr_contacts template_file ws st).2) <= 80.
Proof.
  unfold run_day.
  pose proof (run_jobs_bounded cfg hr_contacts template_file ws
                batch_sizes_of_day) as B.
  specialize (B ltac:(repeat constructor; lia) 0 st).
  exact B.
Qed.

End ScheduleMore.
